(** * DICOM Specific Character Set decoding (src/io/itk-dicom/charset.cpp)

    A shallow embedding of the charset catalogue, the declaration parser
    [setSpecificCharacterSet] and the multi-charset decoder
    [convertCharStringToUTF8], followed by the properties proved of them.

    Conventions of the embedding.
    - [std::string] and [char] buffers are [string] (a sequence of 8-bit
      [ascii] values); positions, iterators and [size_t] offsets are [nat]
      offsets from the start of the buffer.
    - Code that can read outside an object returns an [outcome]: [Ok v] for a
      defined result, [Fault f] when the C++ execution returns no defined
      value, because it has undefined behaviour (the fault names the first
      offending read) or throws.  [OutOfFuel] belongs to the embedding, not to
      the program: [decode_no_out_of_fuel] shows the decoder never returns
      it.
    - A fault for a read outside an object says that the read happens, not
      that the compiled program stops there: the read delivers the byte that
      lies at that address and the execution goes on.  For the read of
      [term[-1]] in [trimWhitespace] the definitions with the suffix [_with]
      follow the execution past it, given the bytes that lie before the
      buffer; they agree with the others wherever no such read is made.
    - iconv is an external capability, taken as an interface ([Iconv]). *)

From Stdlib Require Import Arith ZArith Bool List String Ascii Lia.
Import ListNotations.
Local Open Scope string_scope.
Local Open Scope nat_scope.

(** ** Outcomes *)

Inductive fault : Type :=
| OutOfBounds      (* a read outside the bounds of the object *)
| Uninitialised    (* a read of an allocated byte that was never written *)
| InvalidRange     (* an iterator range whose end precedes its start *)
| BadArrayLength   (* [new char[n]] with a negative n *)
| OutOfFuel.       (* the loop bound of the embedding was too small *)

Inductive outcome (A : Type) : Type :=
| Ok (a : A)
| Fault (f : fault).

Arguments Ok {A} a.
Arguments Fault {A} f.

Definition bind {A B : Type} (m : outcome A) (k : A -> outcome B) : outcome B :=
  match m with
  | Ok a => k a
  | Fault f => Fault f
  end.

Notation "x <- m ;; k" := (bind m (fun x => k))
  (at level 61, m at next level, right associativity).

(** Short-circuit [&&], [||] and [if] over conditions that read memory. *)
Definition and_then (a b : outcome bool) : outcome bool :=
  x <- a ;; if x then b else Ok false.

Definition or_else (a b : outcome bool) : outcome bool :=
  x <- a ;; if x then Ok true else b.

Definition cond {A : Type} (c : outcome bool) (t e : outcome A) : outcome A :=
  x <- c ;; if x then t else e.

Notation "a &&& b" := (and_then a b) (at level 40, left associativity).
Notation "a ||| b" := (or_else a b) (at level 50, left associativity).
Notation "'If' c 'then' t 'otherwise' e" := (cond c t e)
  (at level 10, c at level 200, t at level 200, e at level 200).

(** [faults_within P m]: if [m] faults, its fault satisfies [P]. *)
Definition faults_within {A : Type} (P : fault -> Prop) (m : outcome A) : Prop :=
  forall f, m = Fault f -> P f.

(** [refines m m']: where [m] returns a value, [m'] returns the same. *)
Definition refines {A : Type} (m m' : outcome A) : Prop :=
  forall a, m = Ok a -> m' = Ok a.

(** ** Characters *)

(** The value of a [char] as the comparisons of the source see it
    ([char] is signed on the build targets: bytes 0x80..0xFF are negative). *)
Definition char_val (c : ascii) : Z :=
  let n := Z.of_nat (nat_of_ascii c) in
  (if n <? 128 then n else n - 256)%Z.

Definition char_eq (c : ascii) (v : Z) : bool := (char_val c =? v)%Z.

(** [std::isspace] in the "C" locale: space, \t, \n, \v, \f, \r. *)
Definition isspace (c : ascii) : bool :=
  let v := char_val c in
  ((v =? 32) || ((9 <=? v) && (v <=? 13)))%Z.

Definition NUL : ascii := "000"%char.
Definition ESC : ascii := "027"%char.

(** A graphic ASCII character: neither NUL nor the escape marker. *)
Definition graphic (c : ascii) : bool :=
  (32 <? nat_of_ascii c) && (nat_of_ascii c <? 127).

(** [str[pos]] for a position inside a [std::string] or at its terminator. *)
Definition char_at (str : string) (pos : nat) : ascii :=
  match get pos str with
  | Some c => c
  | None => NUL
  end.

(** The string from position [n] on. *)
Fixpoint drop (n : nat) (s : string) : string :=
  match n, s with
  | O, _ => s
  | S n', String _ s' => drop n' s'
  | S _, EmptyString => EmptyString
  end.

(** ** Constants of the catalogue *)

Definition DEFAULT_ENCODING : string := "ISO_IR 6".
Definition DEFAULT_ISO_2022_ENCODING : string := "ISO 2022 IR 6".
Definition ASCII : string := "ASCII".

(** ** findEsc *)

(** [while (pos < len && str[pos] != 0x1b) ++pos;] The loop makes at most
    [len - pos] iterations, which is the recursion bound. *)
Fixpoint findEsc_loop (str : string) (len pos : nat) (n : nat) : nat :=
  match n with
  | O => pos
  | S n' =>
      if (pos <? len) && negb (char_eq (char_at str pos) 27)
      then findEsc_loop str len (S pos) n'
      else pos
  end.

Definition findEsc (str : string) (len pos : nat) : nat :=
  findEsc_loop str len pos (len - pos).

(** ** trimWhitespace *)

(** [while (start != end && std::isspace( *start)) ++start;]
    [rest] is the part of the term from [start] to [end]. *)
Fixpoint trim_advance (rest : string) (start : nat) : nat :=
  match rest with
  | EmptyString => start
  | String c rest' => if isspace c then trim_advance rest' (S start) else start
  end.

(** [do { --end; } while (end != start && std::isspace( *end));]
    The decrement is unconditional.  From [end = begin()] it leaves the
    string: [end != start] then holds and [*end] reads [term[-1]]. *)
Fixpoint trim_retreat (term : string) (start end_ : nat) : outcome nat :=
  match end_ with
  | O => Fault OutOfBounds
  | S e =>
      if e =? start then Ok e
      else match get e term with
           | Some c => if isspace c then trim_retreat term start e else Ok e
           | None => Fault OutOfBounds
           end
  end.

Definition trimWhitespace (term : string) : outcome string :=
  let start := trim_advance term 0 in
  e <- trim_retreat term start (String.length term) ;;
  (* std::string(start, end + 1) *)
  if e + 1 <? start then Fault InvalidRange
  else Ok (substring start (e + 1 - start) term).

Definition normalizeTerm (term : string) : outcome string :=
  trimWhitespace term.

(** *** Past the read of [term[-1]]

    [trim_retreat] stops at the read of [term[-1]].  The compiled program
    does not: the read delivers the byte that lies before the characters of
    the string and the loop goes on from it.  [below] holds the bytes before
    the buffer of [term], nearest first ([term[-1]], [term[-2]], ...), as far
    as they can be read; a read below them is a fault. *)

(** The [do ... while] once [end] has left the string and reads [depth + 1]
    bytes before [begin()]: [end != start] holds there, [start] being inside
    the string.  The result is [end], as an offset from [begin()]. *)
Fixpoint retreat_below (below : list ascii) (depth : nat) : outcome Z :=
  match below with
  | [] => Fault OutOfBounds
  | c :: below' =>
      if isspace c then retreat_below below' (S depth)
      else Ok (- Z.of_nat depth - 1)%Z
  end.

Fixpoint trim_retreat_with (below : list ascii) (term : string)
         (start end_ : nat) : outcome Z :=
  match end_ with
  | O => retreat_below below 0
  | S e =>
      if e =? start then Ok (Z.of_nat e)
      else match get e term with
           | Some c =>
               if isspace c then trim_retreat_with below term start e
               else Ok (Z.of_nat e)
           | None => Fault OutOfBounds
           end
  end.

Definition trimWhitespace_with (below : list ascii) (term : string)
  : outcome string :=
  let start := trim_advance term 0 in
  e <- trim_retreat_with below term start (String.length term) ;;
  (* std::string(start, end + 1): a negative distance makes the constructor
     throw std::length_error *)
  if (e + 1 <? Z.of_nat start)%Z then Fault InvalidRange
  else Ok (substring start (Z.to_nat (e + 1) - start) term).

Definition normalizeTerm_with (below : list ascii) (term : string)
  : outcome string :=
  trimWhitespace_with below term.

(** Trimming as the specification words it: the token without its leading
    and trailing whitespace.  These definitions follow the specification, not
    the source; they are what [trimWhitespace] is compared with. *)
Fixpoint blank (s : string) : bool :=
  match s with
  | EmptyString => true
  | String c s' => isspace c && blank s'
  end.

Fixpoint drop_leading (s : string) : string :=
  match s with
  | EmptyString => EmptyString
  | String c s' => if isspace c then drop_leading s' else s
  end.

Fixpoint drop_trailing (s : string) : string :=
  match s with
  | EmptyString => EmptyString
  | String c s' => if blank s then EmptyString else String c (drop_trailing s')
  end.

Definition trimmed (s : string) : string := drop_trailing (drop_leading s).

(** The tokens [normalizeTerm] returns a result for, when the bytes [below]
    lie before the token: those with a character that is not whitespace, and
    the empty token when the byte before it is not whitespace. *)
Definition returns_token (below : list ascii) (raw : string) : bool :=
  negb (blank raw) ||
  match raw, below with
  | EmptyString, c :: _ => negb (isspace c)
  | _, _ => false
  end.

(** ** definedTermToIconvCharset *)

(** [defTerm == a || defTerm == b] *)
Definition term_is (defTerm a b : string) : bool :=
  (defTerm =? a)%string || (defTerm =? b)%string.

(** The returned [const char *] is [Some name], [nullptr] is [None].  The
    pointer [ASCII] is returned by the first branch only and no other branch
    returns the text "ASCII", so comparing the result with the pointer [ASCII]
    is comparing the name with that text. *)
Definition definedTermToIconvCharset (defTerm : string) : option string :=
  if term_is defTerm "ISO_IR 6" "ISO 2022 IR 6" then Some ASCII
  else if term_is defTerm "ISO_IR 100" "ISO 2022 IR 100" then Some "ISO-8859-1"
  else if term_is defTerm "ISO_IR 101" "ISO 2022 IR 101" then Some "ISO-8859-2"
  else if term_is defTerm "ISO_IR 109" "ISO 2022 IR 109" then Some "ISO-8859-3"
  else if term_is defTerm "ISO_IR 110" "ISO 2022 IR 110" then Some "ISO-8859-4"
  else if term_is defTerm "ISO_IR 144" "ISO 2022 IR 144" then Some "ISO-8859-5"
  else if term_is defTerm "ISO_IR 127" "ISO 2022 IR 127" then Some "ISO-8859-6"
  else if term_is defTerm "ISO_IR 126" "ISO 2022 IR 126" then Some "ISO-8859-7"
  else if term_is defTerm "ISO_IR 138" "ISO 2022 IR 138" then Some "ISO-8859-8"
  else if term_is defTerm "ISO_IR 148" "ISO 2022 IR 148" then Some "ISO-8859-9"
  else if term_is defTerm "ISO_IR 13" "ISO 2022 IR 13" then Some "SHIFT_JIS"
  else if term_is defTerm "ISO_IR 166" "ISO 2022 IR 166" then Some "TIS-620"
  else if (defTerm =? "ISO 2022 IR 87")%string then Some "ISO-2022-JP"
  else if (defTerm =? "ISO 2022 IR 159")%string then Some "ISO-2022-JP-1"
  else if (defTerm =? "ISO 2022 IR 149")%string then Some "EUC-KR"
  else if (defTerm =? "ISO 2022 IR 58")%string then Some "EUC-CN"
  else if (defTerm =? "ISO_IR 192")%string then Some "UTF-8"
  else if (defTerm =? "GB18030")%string then Some "GB18030"
  else if (defTerm =? "GBK")%string then Some "GBK"
  else None.

(** ** Escape sequences

    [seq] is the pointer just after the ESC byte; it is embedded as the
    accessor [fun k => seq[k]], whose reads can fault.  The conditions are
    evaluated left to right and short-circuit, as in the source, so a byte is
    read only when the bytes before it matched. *)

Section EscapeSequences.

Variable seq : nat -> outcome ascii.

(** [seq[k] == v] *)
Definition seq_eq (k : nat) (v : Z) : outcome bool :=
  c <- seq k ;; Ok (char_eq c v).

(** [seq[k] >= lo && seq[k] <= hi] is written out where it is used. *)
Definition seq_ge (k : nat) (v : Z) : outcome bool :=
  c <- seq k ;; Ok (v <=? char_val c)%Z.

Definition seq_le (k : nat) (v : Z) : outcome bool :=
  c <- seq k ;; Ok (char_val c <=? v)%Z.

(* '$' = 36, '(' = 40, ')' = 41, '-' = 45, '/' = 47,
   'A'..'M' = 65..77, 'T' = 84 *)
Definition iso2022EscSelectCharset : outcome string :=
  If seq_eq 0 40 &&& seq_eq 1 66 then Ok "ISO 2022 IR 6" otherwise
  If seq_eq 0 45 &&& seq_eq 1 65 then Ok "ISO 2022 IR 100" otherwise
  If seq_eq 0 45 &&& seq_eq 1 66 then Ok "ISO 2022 IR 101" otherwise
  If seq_eq 0 45 &&& seq_eq 1 67 then Ok "ISO 2022 IR 109" otherwise
  If seq_eq 0 45 &&& seq_eq 1 68 then Ok "ISO 2022 IR 110" otherwise
  If seq_eq 0 45 &&& seq_eq 1 76 then Ok "ISO 2022 IR 144" otherwise
  If seq_eq 0 45 &&& seq_eq 1 71 then Ok "ISO 2022 IR 127" otherwise
  If seq_eq 0 45 &&& seq_eq 1 70 then Ok "ISO 2022 IR 126" otherwise
  If seq_eq 0 45 &&& seq_eq 1 72 then Ok "ISO 2022 IR 138" otherwise
  If seq_eq 0 45 &&& seq_eq 1 77 then Ok "ISO 2022 IR 148" otherwise
  If seq_eq 0 45 &&& (seq_eq 1 73 ||| seq_eq 1 74)
    then Ok "ISO 2022 IR 13" otherwise
  If seq_eq 0 45 &&& seq_eq 1 84 then Ok "ISO 2022 IR 166" otherwise
  If seq_eq 0 36 &&& seq_eq 1 66 then Ok "ISO 2022 IR 87" otherwise
  If seq_eq 0 36 &&& seq_eq 1 40 &&& seq_eq 2 68
    then Ok "ISO 2022 IR 159" otherwise
  If seq_eq 0 36 &&& seq_eq 1 41 &&& seq_eq 2 67
    then Ok "ISO 2022 IR 149" otherwise
  If seq_eq 0 36 &&& seq_eq 1 41 &&& seq_eq 2 65
    then Ok "ISO 2022 IR 58" otherwise
  If (seq_eq 0 41 &&& seq_eq 1 73) ||| (seq_eq 0 40 &&& seq_eq 1 74)
    then Ok "ISO 2022 IR 13" otherwise
  Ok "".

(** The returned length does not include the ESC byte. *)
Definition iso2022EscSeqLength : outcome nat :=
  If seq_eq 0 36 &&& seq_ge 1 40 &&& seq_le 1 47 then Ok 3 otherwise Ok 2.

End EscapeSequences.

(** The escape sequences [iso2022EscSelectCharset] compares with (lines
    119-170), as the text that follows the ESC byte, each with the term it
    selects. *)
Definition escape_sequences : list (string * string) :=
  [ ("(B", "ISO 2022 IR 6");
    ("-A", "ISO 2022 IR 100");
    ("-B", "ISO 2022 IR 101");
    ("-C", "ISO 2022 IR 109");
    ("-D", "ISO 2022 IR 110");
    ("-L", "ISO 2022 IR 144");
    ("-G", "ISO 2022 IR 127");
    ("-F", "ISO 2022 IR 126");
    ("-H", "ISO 2022 IR 138");
    ("-M", "ISO 2022 IR 148");
    ("-I", "ISO 2022 IR 13");
    ("-J", "ISO 2022 IR 13");
    ("-T", "ISO 2022 IR 166");
    ("$B", "ISO 2022 IR 87");
    ("$(D", "ISO 2022 IR 159");
    ("$)C", "ISO 2022 IR 149");
    ("$)A", "ISO 2022 IR 58");
    (")I", "ISO 2022 IR 13");
    ("(J", "ISO 2022 IR 13") ].

(** A two- or three-byte sequence held in a string: every read is defined. *)
Definition seq_of_string (s : string) : nat -> outcome ascii :=
  fun k => match get k s with
           | Some c => Ok c
           | None => Fault OutOfBounds
           end.

(** ** setSpecificCharacterSet *)

(** The characters of the C string a [const char *] points to: those before
    the first NUL. *)
Fixpoint c_str (s : string) : string :=
  match s with
  | EmptyString => EmptyString
  | String c s' => if Ascii.eqb c NUL then EmptyString else String c (c_str s')
  end.

(** One [std::getline(stream, token, delim)] on the unread part of the
    stream: characters up to the delimiter, which is consumed and dropped, or
    up to the end of the stream. *)
Fixpoint read_until (delim : ascii) (s : string) : string * string :=
  match s with
  | EmptyString => (EmptyString, EmptyString)
  | String c s' =>
      if Ascii.eqb c delim then (EmptyString, s')
      else let (token, rest) := read_until delim s' in (String c token, rest)
  end.

(** The call fails, and ends the [while], when no character at all could be
    extracted, that is when the stream is at its end. *)
Definition getline (s : string) (delim : ascii) : option (string * string) :=
  match s with
  | EmptyString => None
  | _ => Some (read_until delim s)
  end.

(** The tokens the successive calls of the [while] condition deliver.
    [cur] holds the characters of the token being read, in reverse. *)
Fixpoint getlines_from (cur : list ascii) (s : string) (delim : ascii)
  : list string :=
  match s with
  | EmptyString =>
      match cur with
      | [] => []
      | _ => [string_of_list_ascii (rev cur)]
      end
  | String c s' =>
      if Ascii.eqb c delim
      then string_of_list_ascii (rev cur) :: getlines_from [] s' delim
      else getlines_from (c :: cur) s' delim
  end.

Definition getlines (s : string) (delim : ascii) : list string :=
  getlines_from [] s delim.

Definition BACKSLASH : ascii := "092"%char.

(** The pieces, with the delimiter between them. *)
Fixpoint join (delim : ascii) (tokens : list string) : string :=
  match tokens with
  | [] => EmptyString
  | [token] => token
  | token :: tokens' => (token ++ String delim (join delim tokens'))%string
  end.

(** The converter object while it is being set up: the member [m_charsets],
    the local [count] and what was written to [std::cerr].  [count] is an
    [int]; it would take 2^31 tokens to overflow it. *)
Record parse_state : Type := mk_parse_state {
  count : Z;
  m_charsets : list string;
  cerr : list string
}.


(** [m_charsets.end() == std::find(m_charsets.begin(), m_charsets.end(), t)] *)
Definition not_found (charsets : list string) (t : string) : bool :=
  negb (existsb (String.eqb t) charsets).

(** The body of the [while] once the token is normalized. *)
Definition add_token (st : parse_state) (token : string) : parse_state :=
  if (String.length token =? 0) && (count st =? 0)%Z then
    (* first element is empty: the default encoding under both its names *)
    mk_parse_state (count st + 1)
      (m_charsets st ++ [DEFAULT_ENCODING; DEFAULT_ISO_2022_ENCODING])%list
      (cerr st)
  else if not_found (m_charsets st) token then
    match definedTermToIconvCharset token with
    | Some chname =>
        if negb (chname =? ASCII)%string
        then mk_parse_state (count st + 1)
               (m_charsets st ++ [token])%list (cerr st)
        else mk_parse_state (count st + 1) (m_charsets st) (cerr st)
    | None => mk_parse_state (count st + 1) (m_charsets st) (cerr st)
    end
  else
    mk_parse_state (count st + 1) (m_charsets st)
      (cerr st ++ [append "WARN: Found duplicate charset '"
                     (append token "'; ignoring")])%list.

(** The body of the [while] for one raw token. *)
Definition parse_token (st : parse_state) (raw : string) : outcome parse_state :=
  token <- normalizeTerm raw ;; Ok (add_token st token).

Fixpoint parse_tokens (tokens : list string) (st : parse_state)
  : outcome parse_state :=
  match tokens with
  | [] => Ok st
  | raw :: tokens' => st' <- parse_token st raw ;; parse_tokens tokens' st'
  end.

Definition setSpecificCharacterSet (spcharsets : string) : outcome parse_state :=
  let specificCharacterSet := c_str spcharsets in
  st <- parse_tokens (getlines specificCharacterSet BACKSLASH)
          (mk_parse_state 0 [] []) ;;
  let st1 :=
    if (count st =? 0)%Z
    then mk_parse_state (count st) (m_charsets st ++ [DEFAULT_ENCODING])%list
           (cerr st)
    else st in
  if List.length (m_charsets st1) =? 0
  then Ok (mk_parse_state (count st1) (m_charsets st1)
             (cerr st1 ++ ["WARN: Found no suitable charsets!"])%list)
  else Ok st1.

(** A term the parser appends when it meets it for the first time: it has a
    converter charset, and not that of the default table. *)
Definition declarable (term : string) : bool :=
  match definedTermToIconvCharset term with
  | Some chname => negb (chname =? ASCII)%string
  | None => false
  end.

(** The working set a declaration leaves in the converter. *)
Definition ParseCharsetDeclaration (attributeValue : string)
  : outcome (list string) :=
  st <- setSpecificCharacterSet attributeValue ;; Ok (m_charsets st).

(** *** The parser past the read of [term[-1]]

    [below n] holds the bytes that lie before the buffer of [token] when
    [normalizeTerm] is called with [count = n]. *)
Definition parse_token_with (below : Z -> list ascii) (st : parse_state)
           (raw : string) : outcome parse_state :=
  token <- normalizeTerm_with (below (count st)) raw ;; Ok (add_token st token).

Fixpoint parse_tokens_with (below : Z -> list ascii) (tokens : list string)
         (st : parse_state) : outcome parse_state :=
  match tokens with
  | [] => Ok st
  | raw :: tokens' =>
      st' <- parse_token_with below st raw ;; parse_tokens_with below tokens' st'
  end.

Definition setSpecificCharacterSet_with (below : Z -> list ascii)
           (spcharsets : string) : outcome parse_state :=
  let specificCharacterSet := c_str spcharsets in
  st <- parse_tokens_with below (getlines specificCharacterSet BACKSLASH)
          (mk_parse_state 0 [] []) ;;
  let st1 :=
    if (count st =? 0)%Z
    then mk_parse_state (count st) (m_charsets st ++ [DEFAULT_ENCODING])%list
           (cerr st)
    else st in
  if List.length (m_charsets st1) =? 0
  then Ok (mk_parse_state (count st1) (m_charsets st1)
             (cerr st1 ++ ["WARN: Found no suitable charsets!"])%list)
  else Ok st1.

Definition ParseCharsetDeclaration_with (below : Z -> list ascii)
           (attributeValue : string) : outcome (list string) :=
  st <- setSpecificCharacterSet_with below attributeValue ;; Ok (m_charsets st).

(** Every token of the list is one [normalizeTerm] returns a result for, the
    first of them being read with [count = n]. *)
Fixpoint all_return (below : Z -> list ascii) (n : Z) (tokens : list string)
  : Prop :=
  match tokens with
  | [] => True
  | raw :: tokens' =>
      returns_token (below n) raw = true /\ all_return below (n + 1) tokens'
  end.

(** ** The external converter

    iconv is used through three calls.  [iconv_open] is always called with the
    target "UTF-8", so it takes the source charset only; [None] is
    [(iconv_t)-1].  [iconv cd inbuf outbytesleft] is one call of [iconv] on the
    bytes [inbuf]: it returns the handle after the call and the bytes it wrote
    to the output buffer, never more than [outbytesleft] of them.  The source
    ignores the value [iconv] returns and the input it leaves unread.
    [iconv_close cd] is [true] when the call returns 0. *)
Class Iconv : Type := {
  iconv_t : Type;
  iconv_open : string -> option iconv_t;
  iconv : iconv_t -> string -> nat -> iconv_t * string;
  iconv_close : iconv_t -> bool;
  iconv_fits : forall cd inbuf outbytesleft,
      String.length (snd (iconv cd inbuf outbytesleft)) <= outbytesleft
}.

(** ** convertCharStringToUTF8 *)

Fixpoint zeros (n : nat) : string :=
  match n with
  | O => EmptyString
  | S n' => String NUL (zeros n')
  end.

(** [strncpy(dst, src, n)] where [src] is the [c_str()] of a [std::string]:
    the first [n] bytes of [dst] are the bytes of [src] up to its first NUL,
    then NUL bytes. *)
Fixpoint strncpy (src : string) (n : nat) {struct n} : string :=
  match n with
  | O => EmptyString
  | S n' =>
      match src with
      | EmptyString => zeros n
      | String c src' =>
          if Ascii.eqb c NUL then zeros n else String c (strncpy src' n')
      end
  end.

(** A read of [buf[i]] where [buf] holds the bytes written so far into a block
    that is one byte longer ([malloc(len + 1)] of which [len] bytes are
    written). *)
Definition peek (buf : string) (i : nat) : outcome ascii :=
  match get i buf with
  | Some c => Ok c
  | None => if i =? String.length buf then Fault Uninitialised
            else Fault OutOfBounds
  end.

(** [peek] stops at the read of the byte after the bytes written.  The
    compiled program reads what lies there.  [beyond] holds the bytes that
    follow the written ones, as far as they can be read: the first is the
    last byte of the block, which was never written, the others lie after
    the block. *)
Definition peek_with (beyond : list ascii) (buf : string) (i : nat)
  : outcome ascii :=
  match get i (buf ++ string_of_list_ascii beyond) with
  | Some c => Ok c
  | None => Fault OutOfBounds
  end.

(** [std::string(p)] for a [char *] into a buffer: the bytes before the first
    NUL; a buffer without one is read past its end. *)
Fixpoint string_of_cstr (buf : string) : outcome string :=
  match buf with
  | EmptyString => Fault OutOfBounds
  | String c buf' =>
      if Ascii.eqb c NUL then Ok EmptyString
      else s <- string_of_cstr buf' ;; Ok (String c s)
  end.

(** [int utf8len = len * 4]: the product is reduced to a 32-bit signed int. *)
Definition int_of_size (n : Z) : Z :=
  ((n + 2147483648) mod 4294967296 - 2147483648)%Z.

Definition utf8len_of (len : nat) : Z := int_of_size (Z.of_nat len * 4).

Section Decoder.

Context {IC : Iconv}.

(** The member [m_charsets] of the converter. *)
Variable charsets : list string.

(** The cursor, the open handle, the bytes written to [result] so far and
    the room left in it; [calls] lists the calls of [iconv] made so far, each
    with the handle and the input bytes it was given. *)
Record scan_state : Type := mk_scan_state {
  fragmentStart : nat;
  cd : iconv_t;
  written : string;
  outbytesleft : nat;
  calls : list (iconv_t * string)
}.

(** One call [iconv(cd, &inbuf, &inbytesleft, &outbuf, &outbytesleft)]. *)
Definition convert (st : scan_state) (inbuf : string) (next : nat)
  : scan_state :=
  let r := iconv (cd st) inbuf (outbytesleft st) in
  mk_scan_state next (fst r) (written st ++ snd r)
    (outbytesleft st - String.length (snd r))
    (calls st ++ [(cd st, inbuf)])%list.

(** The bytes written and the room left never exceed the room [result]
    had at the start. *)
Definition fits (utf8len : nat) (st : scan_state) : Prop :=
  String.length (written st) + outbytesleft st <= utf8len.

Definition with_handle (st : scan_state) (h : iconv_t) (next : nat)
  : scan_state :=
  mk_scan_state next h (written st) (outbytesleft st) (calls st).

Definition is_iso2022_jp (nextCharset : string) : bool :=
  (nextCharset =? "ISO-2022-JP")%string
  || (nextCharset =? "ISO-2022-JP-1")%string.

Section Scan.

Variables (str copiedStr : string) (len : nat).

(** How one pass through the body of the [while] ends. *)
Inductive pass : Type :=
| Break (st : scan_state)      (* a [break]: a warning was written *)
| Continue (st : scan_state).  (* back to the loop condition *)

(** The first half of the body: find the end of the fragment, convert
    the fragment, move the cursor to its end. *)
Definition next_fragment (st : scan_state) : scan_state :=
  let fragmentEnd := findEsc str len (fragmentStart st + 1) in
  let inbuf :=
    substring (fragmentStart st) (fragmentEnd - fragmentStart st)
      copiedStr in
  convert st inbuf fragmentEnd.

(** The second half, [if (fragmentStart < len) { ... }]: an escape marker
    sits at the cursor. *)
Definition switch_table (st : scan_state) : outcome pass :=
  if fragmentStart st <? len then
    let escSeq := fun k => peek copiedStr (fragmentStart st + 1 + k) in
    nextTerm <- iso2022EscSelectCharset escSeq ;;
    match definedTermToIconvCharset nextTerm with
    | None => Ok (Break st)
    | Some nextCharset =>
        if not_found charsets nextTerm then Ok (Break st)
        else if negb (iconv_close (cd st)) then Ok (Break st)
        else
          match iconv_open nextCharset with
          | None => Ok (Break st)
          | Some cd' =>
              if negb (is_iso2022_jp nextCharset) then
                n <- iso2022EscSeqLength escSeq ;;
                Ok (Continue
                      (with_handle st cd' (fragmentStart st + (n + 1))))
              else Ok (Continue (with_handle st cd' (fragmentStart st)))
          end
    end
  else Ok (Continue st).

Definition scan_body (st : scan_state) : outcome pass :=
  switch_table (next_fragment st).

(** [while (fragmentStart < len) { ... }].  [Ok st] is the state in which
    the loop is left, by its condition or by a [break]. *)
Fixpoint scan (fuel : nat) (st : scan_state) : outcome scan_state :=
  if negb (fragmentStart st <? len) then Ok st
  else
    match fuel with
    | O => Fault OutOfFuel
    | S fuel' =>
        r <- scan_body st ;;
        match r with
        | Break st' => Ok st'
        | Continue st' => scan fuel' st'
        end
    end.

(** The states in which the loop condition is evaluated during a scan
    that starts in [st0]. *)
Inductive reaches (st0 : scan_state) : scan_state -> Prop :=
| reaches_start : reaches st0 st0
| reaches_next (st st' : scan_state) :
    reaches st0 st ->
    fragmentStart st < len ->
    scan_body st = Ok (Continue st') ->
    reaches st0 st'.

(** The same loop past the read of [copiedStr[len]]: the escape bytes are
    read with [peek_with]. *)
Definition switch_table_with (beyond : list ascii) (st : scan_state)
  : outcome pass :=
  if fragmentStart st <? len then
    let escSeq :=
      fun k => peek_with beyond copiedStr (fragmentStart st + 1 + k) in
    nextTerm <- iso2022EscSelectCharset escSeq ;;
    match definedTermToIconvCharset nextTerm with
    | None => Ok (Break st)
    | Some nextCharset =>
        if not_found charsets nextTerm then Ok (Break st)
        else if negb (iconv_close (cd st)) then Ok (Break st)
        else
          match iconv_open nextCharset with
          | None => Ok (Break st)
          | Some cd' =>
              if negb (is_iso2022_jp nextCharset) then
                n <- iso2022EscSeqLength escSeq ;;
                Ok (Continue
                      (with_handle st cd' (fragmentStart st + (n + 1))))
              else Ok (Continue (with_handle st cd' (fragmentStart st)))
          end
    end
  else Ok (Continue st).

Definition scan_body_with (beyond : list ascii) (st : scan_state)
  : outcome pass :=
  switch_table_with beyond (next_fragment st).

Fixpoint scan_with (beyond : list ascii) (fuel : nat) (st : scan_state)
  : outcome scan_state :=
  if negb (fragmentStart st <? len) then Ok st
  else
    match fuel with
    | O => Fault OutOfFuel
    | S fuel' =>
        r <- scan_body_with beyond st ;;
        match r with
        | Break st' => Ok st'
        | Continue st' => scan_with beyond fuel' st'
        end
    end.

End Scan.

(** What a run of the decoder leaves: the returned string and the calls of
    [iconv] it made. *)
Record decoded : Type := mk_decoded {
  output : string;
  conversions : list (iconv_t * string)
}.

(** [return std::string(result.get())] for a [result] of [utf8len + 1]
    bytes, all NUL but those written. *)
Definition finish (utf8len : nat) (st : scan_state) : outcome decoded :=
  s <- string_of_cstr
         (written st ++ zeros (utf8len + 1 - String.length (written st))) ;;
  Ok (mk_decoded s (calls st)).

(** [convertCharStringToUTF8(const std::string &str)], which calls the
    overload on [str.c_str()] and [str.size()]. *)
Definition decode (str : string) : outcome decoded :=
  let len := String.length str in
  match charsets with
  | [] => Fault OutOfBounds                      (* m_charsets[0] *)
  | first :: _ =>
      match definedTermToIconvCharset first with
      | None => Ok (mk_decoded EmptyString [])
      | Some initialCharset =>
          match iconv_open initialCharset with
          | None => Ok (mk_decoded EmptyString [])
          | Some cd0 =>
              let utf8len := utf8len_of len in
              if (utf8len <? 0)%Z then Fault BadArrayLength
              else
                let copiedStr := strncpy str len in
                let st0 := mk_scan_state 0 cd0 EmptyString
                             (Z.to_nat utf8len) [] in
                if List.length charsets =? 1 then
                  finish (Z.to_nat utf8len) (convert st0 copiedStr 0)
                else
                  st <- scan str copiedStr len len st0 ;;
                  finish (Z.to_nat utf8len) st
          end
      end
  end.

Definition convertCharStringToUTF8 (str : string) : outcome string :=
  r <- decode str ;; Ok (output r).

(** The decoder past the read of [copiedStr[len]]. *)
Definition decode_with (beyond : list ascii) (str : string) : outcome decoded :=
  let len := String.length str in
  match charsets with
  | [] => Fault OutOfBounds                      (* m_charsets[0] *)
  | first :: _ =>
      match definedTermToIconvCharset first with
      | None => Ok (mk_decoded EmptyString [])
      | Some initialCharset =>
          match iconv_open initialCharset with
          | None => Ok (mk_decoded EmptyString [])
          | Some cd0 =>
              let utf8len := utf8len_of len in
              if (utf8len <? 0)%Z then Fault BadArrayLength
              else
                let copiedStr := strncpy str len in
                let st0 := mk_scan_state 0 cd0 EmptyString
                             (Z.to_nat utf8len) [] in
                if List.length charsets =? 1 then
                  finish (Z.to_nat utf8len) (convert st0 copiedStr 0)
                else
                  st <- scan_with str copiedStr len beyond len st0 ;;
                  finish (Z.to_nat utf8len) st
          end
      end
  end.

End Decoder.

(** ** A converter to run the decoder on

    A small stand-in for iconv, enough to evaluate the decoder on concrete
    inputs: every charset can be opened; "ISO-8859-1" is converted to UTF-8;
    every other charset is treated as ASCII (bytes below 0x80 are copied, the
    conversion stops at the first byte that is not ASCII).  The handle is the
    name of the source charset.  A character is written only when it fits. *)

Fixpoint sample_ascii (inbuf : string) (room : nat) : string :=
  match inbuf, room with
  | String c inbuf', S room' =>
      if nat_of_ascii c <? 128 then String c (sample_ascii inbuf' room')
      else EmptyString
  | _, _ => EmptyString
  end.

Fixpoint sample_latin1 (inbuf : string) (room : nat) : string :=
  match inbuf with
  | EmptyString => EmptyString
  | String c inbuf' =>
      let n := nat_of_ascii c in
      if n <? 128 then
        match room with
        | S room' => String c (sample_latin1 inbuf' room')
        | O => EmptyString
        end
      else
        match room with
        | S (S room') =>
            String (ascii_of_nat (192 + n / 64))
              (String (ascii_of_nat (128 + n mod 64))
                 (sample_latin1 inbuf' room'))
        | _ => EmptyString
        end
  end.

Definition sample_convert (source inbuf : string) (room : nat) : string :=
  if (source =? "ISO-8859-1")%string then sample_latin1 inbuf room
  else sample_ascii inbuf room.

#[export] Instance sample_iconv : Iconv.
Proof.
  refine {| iconv_t := string;
            iconv_open := fun name => Some name;
            iconv := fun h inbuf room => (h, sample_convert h inbuf room);
            iconv_close := fun _ => true |}.
  intros h inbuf room. unfold sample_convert. simpl.
  destruct (h =? "ISO-8859-1")%string.
  - revert room.
    induction inbuf as [|c inbuf IH]; intros room; simpl; [lia|].
    destruct (nat_of_ascii c <? 128).
    + destruct room as [|room]; simpl; [lia|]. specialize (IH room). lia.
    + destruct room as [|[|room]]; simpl; try lia. specialize (IH room). lia.
  - revert room.
    induction inbuf as [|c inbuf IH]; intros room; simpl; [lia|].
    destruct room as [|room]; simpl; [lia|].
    destruct (nat_of_ascii c <? 128); simpl; [|lia].
    specialize (IH room). lia.
Defined.

(** * Properties *)

(** ** Strings *)

Lemma get_lt (s : string) (i : nat) (c : ascii) :
  get i s = Some c -> i < String.length s.
Proof.
  revert i. induction s as [|a s IH]; intros [|i]; simpl; try discriminate.
  - lia.
  - intros H. apply IH in H. lia.
Qed.

Lemma get_some (s : string) (i : nat) :
  i < String.length s -> exists c, get i s = Some c.
Proof.
  revert i. induction s as [|a s IH]; intros [|i]; simpl; try lia.
  - eauto.
  - intros H. apply IH. lia.
Qed.

Lemma get_none (s : string) (i : nat) :
  String.length s <= i -> get i s = None.
Proof.
  revert i. induction s as [|a s IH]; intros [|i]; simpl; try lia; auto.
  intros H. apply IH. lia.
Qed.

Lemma length_app (s t : string) :
  String.length (s ++ t) = String.length s + String.length t.
Proof. induction s; simpl; auto. Qed.

Lemma app_empty_r (s : string) : (s ++ "")%string = s.
Proof. induction s; simpl; congruence. Qed.

Lemma app_assoc_s (s t u : string) : ((s ++ t) ++ u = s ++ (t ++ u))%string.
Proof. induction s; simpl; congruence. Qed.

Lemma substring_0_0 (s : string) : substring 0 0 s = EmptyString.
Proof. destruct s; reflexivity. Qed.

Lemma substring_drop (n m : nat) (s : string) :
  substring n m s = substring 0 m (drop n s).
Proof.
  revert s. induction n as [|n IH]; intros s; [reflexivity|].
  destruct s as [|c s]; simpl; [|apply IH].
  destruct m; reflexivity.
Qed.

Lemma substring_all (s : string) : substring 0 (String.length s) s = s.
Proof. induction s; simpl; congruence. Qed.

Lemma get_drop (n i : nat) (s : string) : get i (drop n s) = get (n + i) s.
Proof.
  revert s. induction n as [|n IH]; intros s; [reflexivity|].
  destruct s as [|c s]; simpl; [|apply IH].
  destruct i; reflexivity.
Qed.

Lemma length_drop (n : nat) (s : string) :
  String.length (drop n s) = String.length s - n.
Proof.
  revert s. induction n as [|n IH]; intros s; simpl; [lia|].
  destruct s; simpl; auto.
Qed.

(** ** trimWhitespace *)

Lemma blank_get (s : string) :
  blank s = true <->
  forall i c, get i s = Some c -> isspace c = true.
Proof.
  induction s as [|a s IH]; simpl.
  - split; [intros _ [|i] c; discriminate | reflexivity].
  - rewrite andb_true_iff, IH. split.
    + intros [Ha Hs] [|i] c H; [congruence | eauto].
    + intros H. split; [apply (H 0); reflexivity|].
      intros i c Hi. apply (H (S i)). exact Hi.
Qed.

Lemma drop_trailing_blank (s : string) :
  blank s = true -> drop_trailing s = EmptyString.
Proof. destruct s; simpl; [reflexivity|]. intros ->. reflexivity. Qed.

(** The first loop stops on the first character that is not whitespace. *)
Lemma trim_advance_spec (s : string) (k : nat) :
  exists n,
    trim_advance s k = k + n /\ n <= String.length s /\
    drop_leading s = drop n s /\
    (forall i c, i < n -> get i s = Some c -> isspace c = true) /\
    (blank s = true -> n = String.length s) /\
    (blank s = false ->
     exists c, get n s = Some c /\ isspace c = false).
Proof.
  revert k. induction s as [|a s IH]; intros k; simpl.
  - exists 0. split; [lia|]. split; [lia|]. split; [reflexivity|].
    split; [intros i c Hi; lia|]. split; [reflexivity|discriminate].
  - destruct (isspace a) eqn:Ha; simpl.
    + destruct (IH (S k)) as (n & E & Hn & Hd & Hw & Hb & Hnb).
      exists (S n). split; [lia|]. split; [lia|]. split; [exact Hd|].
      split; [|split].
      * intros [|i] c Hi H; simpl in H; [congruence|].
        apply (Hw i c); [lia|exact H].
      * intros B. rewrite (Hb B). reflexivity.
      * exact Hnb.
    + exists 0. split; [lia|]. split; [lia|]. split; [reflexivity|].
      split; [intros i c Hi; lia|]. split; [discriminate|].
      intros _. exists a. split; [reflexivity|exact Ha].
Qed.

(** On a blank token the second loop runs off the front of the string. *)
Lemma trim_retreat_blank (s : string) (start m : nat) :
  m <= start ->
  (forall i c, get i s = Some c -> isspace c = true) ->
  m <= String.length s ->
  trim_retreat s start m = Fault OutOfBounds.
Proof.
  intros Hm Hw. induction m as [|e IH]; intros Hl; simpl; [reflexivity|].
  destruct (Nat.eqb_spec e start); [lia|].
  destruct (get_some s e) as [c Hc]; [lia|].
  rewrite Hc, (Hw _ _ Hc). apply IH; lia.
Qed.

(** Otherwise it stops on the last character that is not whitespace. *)
Lemma trim_retreat_spec (s : string) (start : nat) (c0 : ascii) (m : nat) :
  get start s = Some c0 -> isspace c0 = false ->
  start < m -> m <= String.length s ->
  exists e c,
    trim_retreat s start m = Ok e /\ start <= e /\ e < m /\
    get e s = Some c /\ isspace c = false /\
    (forall i c', e < i -> i < m -> get i s = Some c' -> isspace c' = true).
Proof.
  intros H0 Hc0. induction m as [|e IH]; intros Hs Hl; [lia|]. simpl.
  destruct (Nat.eqb_spec e start) as [->|Hne].
  - exists start, c0.
    split; [reflexivity|]. split; [lia|]. split; [lia|].
    split; [exact H0|]. split; [exact Hc0|]. intros i c' ? ?. lia.
  - destruct (get_some s e) as [c Hc]; [lia|]. rewrite Hc.
    destruct (isspace c) eqn:Hsp.
    + destruct IH as (e' & c' & E & H1 & H2 & H3 & H4 & H5); [lia|lia|].
      exists e', c'.
      split; [exact E|]. split; [lia|]. split; [lia|].
      split; [exact H3|]. split; [exact H4|].
      intros i ci Hi1 Hi2 Hi.
      destruct (Nat.eq_dec i e) as [->|]; [congruence|].
      apply (H5 i ci); auto. lia.
    + exists e, c.
      split; [reflexivity|]. split; [lia|]. split; [lia|].
      split; [exact Hc|]. split; [exact Hsp|]. intros i c' ? ?. lia.
Qed.

Lemma drop_trailing_spec (t : string) (j : nat) (c : ascii) :
  get j t = Some c -> isspace c = false ->
  (forall i c', j < i -> get i t = Some c' -> isspace c' = true) ->
  drop_trailing t = substring 0 (j + 1) t.
Proof.
  revert j. induction t as [|a t IH]; intros j Hj Hc Hw; [destruct j; discriminate|].
  assert (B : blank (String a t) = false).
  { destruct (blank (String a t)) eqn:B; [|reflexivity].
    rewrite blank_get in B. rewrite (B _ _ Hj) in Hc. discriminate. }
  cbn [drop_trailing]. rewrite B.
  destruct j as [|j]; simpl.
  - rewrite substring_0_0. f_equal. apply drop_trailing_blank.
    apply blank_get. intros i c' Hi. apply (Hw (S i) c'); [lia|exact Hi].
  - f_equal. apply (IH j); auto.
    intros i c' Hi Hg. apply (Hw (S i) c'); [lia|exact Hg].
Qed.

(** What [trimWhitespace] does on every token: on a token with a character
    that is not whitespace it returns the trimmed token; on the empty token
    and on a token of whitespace only it reads before the start of the
    string. *)
Lemma trimWhitespace_spec (term : string) :
  trimWhitespace term =
  if blank term then Fault OutOfBounds else Ok (trimmed term).
Proof.
  unfold trimWhitespace, trimmed.
  destruct (trim_advance_spec term 0) as (n & E & Hn & Hd & Hw & Hb & Hnb).
  rewrite E. simpl.
  destruct (blank term) eqn:B.
  - rewrite (Hb eq_refl).
    rewrite trim_retreat_blank; auto. apply blank_get; exact B.
  - destruct (Hnb eq_refl) as (c0 & H0 & Hc0).
    destruct (trim_retreat_spec term n c0 (String.length term))
      as (e & c & R & H1 & H2 & H3 & H4 & H5); auto.
    { apply get_lt in H0. exact H0. }
    rewrite R. simpl.
    destruct (Nat.ltb_spec (e + 1) n); [lia|].
    f_equal. rewrite Hd, substring_drop.
    symmetry. replace (e + 1 - n) with ((e - n) + 1) by lia.
    apply (drop_trailing_spec _ _ c); auto.
    + rewrite get_drop. replace (n + (e - n)) with e by lia. exact H3.
    + intros i c' Hi. rewrite get_drop. intros Hg.
      apply (H5 (n + i) c'); auto; try lia. apply get_lt in Hg. exact Hg.
Qed.

Lemma trimmed_nonempty (term : string) :
  blank term = false -> trimmed term <> EmptyString.
Proof.
  intros B. unfold trimmed.
  destruct (trim_advance_spec term 0) as (n & _ & _ & Hd & _ & _ & Hnb).
  destruct (Hnb B) as (c & Hc & Hsp). rewrite Hd.
  destruct (drop n term) as [|a t] eqn:D.
  - pose proof (get_drop n 0 term) as G. rewrite D in G. simpl in G.
    rewrite Nat.add_0_r in G. congruence.
  - pose proof (get_drop n 0 term) as G. rewrite D in G. simpl in G.
    rewrite Nat.add_0_r, Hc in G. injection G as ->.
    cbn [drop_trailing blank]. rewrite Hsp. simpl. discriminate.
Qed.

(** C3 (trimming terminates without an out-of-bounds access on every token,
    the empty and the all-whitespace token included).  The code does not:
    on the empty token and on a token of one space the [do ... while] loop
    decrements [end] below [begin()] and reads there; every other token is
    trimmed as the claim says ([trimWhitespace_spec]). *)
Theorem trimWhitespace_faults_on_blank_tokens :
  trimWhitespace "" = Fault OutOfBounds /\
  trimWhitespace " " = Fault OutOfBounds /\
  normalizeTerm "" = Fault OutOfBounds /\
  (forall term,
      normalizeTerm term =
      if blank term then Fault OutOfBounds else Ok (trimmed term)).
Proof.
  split; [reflexivity|]. split; [reflexivity|]. split; [reflexivity|].
  intros term. apply trimWhitespace_spec.
Qed.

(** *** Past the read of [term[-1]] *)

Lemma retreat_below_le (below : list ascii) (depth : nat) (e : Z) :
  retreat_below below depth = Ok e -> (e <= - Z.of_nat depth - 1)%Z.
Proof.
  revert depth. induction below as [|c below IH]; intros depth; simpl;
    [discriminate|].
  destruct (isspace c).
  - intros H. apply IH in H. lia.
  - intros H. injection H as <-. lia.
Qed.

(** The loop stops on the first byte it reads below the string exactly when
    that byte is not whitespace. *)
Lemma retreat_below_first (below : list ascii) (e : Z) :
  retreat_below below 0 = Ok e ->
  (e = -1)%Z <-> exists c more, below = c :: more /\ isspace c = false.
Proof.
  destruct below as [|c below]; simpl; [discriminate|].
  destruct (isspace c) eqn:Hc.
  - intros H. apply retreat_below_le in H. split; [lia|].
    intros (c' & more & E & Hc'). injection E as <- <-. congruence.
  - intros H. injection H as <-. split; [|reflexivity].
    intros _. exists c, below. auto.
Qed.

Lemma trim_retreat_with_blank (below : list ascii) (s : string)
      (start m : nat) :
  m <= start ->
  (forall i c, get i s = Some c -> isspace c = true) ->
  m <= String.length s ->
  trim_retreat_with below s start m = retreat_below below 0.
Proof.
  intros Hm Hw. induction m as [|e IH]; intros Hl; simpl; [reflexivity|].
  destruct (Nat.eqb_spec e start); [lia|].
  destruct (get_some s e) as [c Hc]; [lia|].
  rewrite Hc, (Hw _ _ Hc). apply IH; lia.
Qed.

(** Where the loop stays inside the string, the bytes below do not matter. *)
Lemma trim_retreat_with_inside (below : list ascii) (s : string)
      (start m e : nat) :
  trim_retreat s start m = Ok e ->
  trim_retreat_with below s start m = Ok (Z.of_nat e).
Proof.
  induction m as [|k IH]; simpl; [discriminate|].
  destruct (k =? start); [intros H; injection H as <-; reflexivity|].
  destruct (get k s) as [c|]; [|discriminate].
  destruct (isspace c); [exact IH|].
  intros H; injection H as <-; reflexivity.
Qed.

(** What [trimWhitespace] goes on to do: a token with a character that is
    not whitespace is trimmed, whatever lies below it; the empty token comes
    back empty when the byte below it is not whitespace; in every other case
    the range handed to the [std::string] constructor ends before its start,
    or the loop reads on below the bytes that can be read. *)
Lemma trimWhitespace_with_spec (below : list ascii) (term : string) :
  trimWhitespace_with below term =
  if blank term then
    match retreat_below below 0 with
    | Ok e =>
        if (String.length term =? 0) && (e =? -1)%Z then Ok EmptyString
        else Fault InvalidRange
    | Fault f => Fault f
    end
  else Ok (trimmed term).
Proof.
  destruct (blank term) eqn:B.
  - unfold trimWhitespace_with.
    destruct (trim_advance_spec term 0) as (n & E & Hn & Hd & Hw & Hb & Hnb).
    rewrite E, (Hb B). cbn [Nat.add].
    rewrite trim_retreat_with_blank; auto; [|apply blank_get; exact B].
    destruct (retreat_below below 0) as [e|f] eqn:R; cbn [bind]; [|reflexivity].
    pose proof (retreat_below_le _ _ _ R) as Hle.
    destruct term as [|a t]; cbn [String.length Nat.eqb andb].
    + destruct (Z.eqb_spec e (-1)) as [->|Hne]; [reflexivity|].
      destruct (Z.ltb_spec (e + 1) (Z.of_nat 0)); [reflexivity|lia].
    + destruct (Z.ltb_spec (e + 1) (Z.of_nat (S (String.length t))));
        [reflexivity|lia].
  - pose proof (trimWhitespace_spec term) as S. rewrite B in S.
    unfold trimWhitespace in S. unfold trimWhitespace_with.
    destruct (trim_retreat term (trim_advance term 0) (String.length term))
      as [e|f] eqn:R; cbn [bind] in S; [|discriminate].
    rewrite (trim_retreat_with_inside below _ _ _ _ R). cbn [bind].
    destruct (Nat.ltb_spec (e + 1) (trim_advance term 0)); [discriminate|].
    destruct (Z.ltb_spec (Z.of_nat e + 1) (Z.of_nat (trim_advance term 0)));
      [lia|].
    replace (Z.to_nat (Z.of_nat e + 1)) with (e + 1) by lia. exact S.
Qed.

Lemma blank_empty (term : string) :
  String.length term = 0 -> term = EmptyString.
Proof. destruct term; [reflexivity|discriminate]. Qed.

(** [returns_token] is exact: the call returns a token on these tokens, and
    on no other. *)
Lemma normalizeTerm_with_returns (below : list ascii) (term : string) :
  returns_token below term = true ->
  normalizeTerm_with below term =
  Ok (if blank term then EmptyString else trimmed term).
Proof.
  unfold normalizeTerm_with, returns_token. rewrite trimWhitespace_with_spec.
  destruct (blank term) eqn:B; cbn [negb orb]; [|reflexivity].
  destruct term as [|a t]; [|discriminate].
  destruct below as [|c more]; [discriminate|].
  cbn [retreat_below]. intros H. apply negb_true_iff in H. rewrite H.
  reflexivity.
Qed.

Lemma normalizeTerm_with_throws (below : list ascii) (term : string) :
  returns_token below term = false ->
  exists f, normalizeTerm_with below term = Fault f.
Proof.
  unfold normalizeTerm_with, returns_token. rewrite trimWhitespace_with_spec.
  destruct (blank term) eqn:B; cbn [negb orb]; [|discriminate].
  intros H.
  destruct (retreat_below below 0) as [e|f] eqn:R; [|exists f; reflexivity].
  destruct term as [|a t]; cbn [String.length Nat.eqb andb];
    [|exists InvalidRange; reflexivity].
  destruct (Z.eqb_spec e (-1)) as [->|Hne];
    [|exists InvalidRange; reflexivity].
  apply retreat_below_first in R. destruct (proj1 R eq_refl) as (c & more & -> & Hc).
  rewrite Hc in H. discriminate.
Qed.

(** Where [normalizeTerm] returns without a read outside the token, the
    execution past such reads returns the same. *)
Lemma normalizeTerm_with_agrees (below : list ascii) (term result : string) :
  normalizeTerm term = Ok result ->
  normalizeTerm_with below term = Ok result.
Proof.
  unfold normalizeTerm, normalizeTerm_with.
  rewrite trimWhitespace_spec, trimWhitespace_with_spec.
  destruct (blank term); [discriminate|]. auto.
Qed.

(** ** Escape sequences *)

Lemma char_eq_ascii (c : ascii) (v : Z) :
  (0 <= v < 128)%Z -> char_eq c v = (nat_of_ascii c =? Z.to_nat v).
Proof.
  intros Hn. unfold char_eq, char_val.
  pose proof (nat_ascii_bounded c) as Hb.
  destruct (Nat.eqb_spec (nat_of_ascii c) (Z.to_nat v));
    destruct (Z.ltb_spec (Z.of_nat (nat_of_ascii c)) 128).
  - apply Z.eqb_eq. lia.
  - lia.
  - apply Z.eqb_neq. lia.
  - apply Z.eqb_neq. lia.
Qed.

(** The length the source computes, on every sequence of two bytes or
    more. *)
Lemma char_ge_range (c : ascii) (v : Z) :
  (0 <= v < 128)%Z ->
  (v <=? char_val c)%Z =
  (Z.to_nat v <=? nat_of_ascii c) && (nat_of_ascii c <? 128).
Proof.
  intros Hv. unfold char_val.
  destruct (Z.ltb_spec (Z.of_nat (nat_of_ascii c)) 128);
    destruct (Nat.ltb_spec (nat_of_ascii c) 128); try lia.
  - rewrite andb_true_r.
    destruct (Nat.leb_spec (Z.to_nat v) (nat_of_ascii c));
      [apply Z.leb_le | apply Z.leb_gt]; lia.
  - rewrite andb_false_r. apply Z.leb_gt. pose proof (nat_ascii_bounded c). lia.
Qed.

Lemma char_le_range (c : ascii) (v : Z) :
  (0 <= v < 128)%Z ->
  (nat_of_ascii c <? 128) = true ->
  (char_val c <=? v)%Z = (nat_of_ascii c <=? Z.to_nat v).
Proof.
  intros Hv Hc. apply Nat.ltb_lt in Hc. unfold char_val.
  destruct (Z.ltb_spec (Z.of_nat (nat_of_ascii c)) 128); [|lia].
  destruct (Nat.leb_spec (nat_of_ascii c) (Z.to_nat v));
    [apply Z.leb_le | apply Z.leb_gt]; lia.
Qed.

Lemma iso2022EscSeqLength_two_bytes (c0 c1 : ascii) (rest : string) :
  iso2022EscSeqLength (seq_of_string (String c0 (String c1 rest))) =
  Ok (if (nat_of_ascii c0 =? 36)
          && (40 <=? nat_of_ascii c1) && (nat_of_ascii c1 <=? 47)
      then 3 else 2).
Proof.
  unfold iso2022EscSeqLength, cond, and_then, seq_eq, seq_ge, seq_le,
    seq_of_string, bind.
  cbn [get].
  rewrite (char_eq_ascii c0 36) by lia. change (Z.to_nat 36) with 36.
  destruct (nat_of_ascii c0 =? 36); [|reflexivity].
  rewrite (char_ge_range c1 40) by lia. change (Z.to_nat 40) with 40.
  rewrite !andb_true_l.
  destruct (40 <=? nat_of_ascii c1); [|reflexivity].
  rewrite andb_true_l.
  destruct (nat_of_ascii c1 <? 128) eqn:E.
  - rewrite (char_le_range c1 47) by (lia || exact E).
    change (Z.to_nat 47) with 47. destruct (nat_of_ascii c1 <=? 47); reflexivity.
  - apply Nat.ltb_ge in E.
    destruct (Nat.leb_spec (nat_of_ascii c1) 47); [lia|reflexivity].
Qed.

(** C9 as stated fails: no set of first bytes decides the length, since
    ESC $ B is two bytes long and ESC $ ( D three. *)
Lemma escape_length_not_decided_by_first_byte :
  iso2022EscSeqLength (seq_of_string "$B") = Ok 2 /\
  iso2022EscSeqLength (seq_of_string "$(D") = Ok 3 /\
  ~ (exists designated : ascii -> bool,
        forall c0 c1 rest,
          iso2022EscSeqLength (seq_of_string (String c0 (String c1 rest))) =
          Ok (if designated c0 then 3 else 2)).
Proof.
  split; [reflexivity|]. split; [reflexivity|].
  intros [designated H].
  pose proof (H "$"%char "B"%char EmptyString) as H1.
  pose proof (H "$"%char "("%char "D") as H2.
  cbv in H1, H2. destruct (designated "$"%char); discriminate.
Qed.

(** C9, amended: the length of an escape sequence beyond the marker is
    decided by its first two bytes: it is 3 when the first byte is '$' and
    the second lies in '(' .. '/', and 2 otherwise. *)
Theorem escape_length_decided_by_first_two_bytes :
  forall (c0 c1 : ascii) (rest : string),
    iso2022EscSeqLength (seq_of_string (String c0 (String c1 rest))) =
    Ok (if Ascii.eqb c0 "$"
            && (nat_of_ascii "(" <=? nat_of_ascii c1)
            && (nat_of_ascii c1 <=? nat_of_ascii "/")
        then 3 else 2).
Proof.
  intros c0 c1 rest. rewrite iso2022EscSeqLength_two_bytes.
  replace (Ascii.eqb c0 "$") with (nat_of_ascii c0 =? 36); [reflexivity|].
  destruct (Ascii.eqb_spec c0 "$") as [->|Hne]; [reflexivity|].
  apply Nat.eqb_neq. intros E. apply Hne.
  rewrite <- (ascii_nat_embedding c0), E. reflexivity.
Qed.

(** ** setSpecificCharacterSet *)

(** [getlines] is the iteration of [getline]: each call that succeeds
    delivers the next token and leaves the rest of the stream. *)
Lemma read_until_getlines_from (cur : list ascii) (s : string) (d : ascii) :
  s <> EmptyString ->
  getlines_from cur s d =
  (string_of_list_ascii (rev cur) ++ fst (read_until d s))%string
    :: getlines_from [] (snd (read_until d s)) d.
Proof.
  revert cur. induction s as [|c s IH]; intros cur Hs; [congruence|].
  simpl. destruct (Ascii.eqb c d) eqn:E; simpl.
  - rewrite app_empty_r. reflexivity.
  - destruct s as [|c' s'].
    + simpl. rewrite <- (string_of_list_ascii_of_string
                           (string_of_list_ascii (rev cur) ++ String c "")).
      f_equal. f_equal.
      assert (A : forall l t, list_ascii_of_string
                                (string_of_list_ascii l ++ t)
                              = (l ++ list_ascii_of_string t)%list).
      { induction l as [|a l IHl]; intros t; simpl; [reflexivity|].
        rewrite IHl. reflexivity. }
      rewrite A. reflexivity.
    + rewrite IH by discriminate.
      destruct (read_until d (String c' s')) as [token rest]. simpl.
      f_equal.
      assert (A : forall l t, (string_of_list_ascii (l ++ [c]) ++ t
                               = string_of_list_ascii l ++ String c t)%string).
      { induction l as [|a l IHl]; intros t; simpl; [reflexivity|].
        rewrite IHl. reflexivity. }
      apply A.
Qed.

Lemma getlines_getline (s : string) (d : ascii) :
  getlines s d =
  match getline s d with
  | None => []
  | Some (token, rest) => token :: getlines rest d
  end.
Proof.
  unfold getlines, getline. destruct s as [|c s]; [reflexivity|].
  rewrite read_until_getlines_from by discriminate.
  destruct (read_until d (String c s)). reflexivity.
Qed.

Lemma getlines_from_nil (cur : list ascii) (s : string) (d : ascii) :
  getlines_from cur s d = [] <-> cur = [] /\ s = EmptyString.
Proof.
  revert cur. induction s as [|c s IH]; intros cur; simpl.
  - destruct cur; split; try tauto; try discriminate.
    intros [H _]. discriminate.
  - destruct (Ascii.eqb c d).
    + split; [discriminate | intros [_ H]; discriminate].
    + rewrite IH. split; intros [H1 H2]; discriminate.
Qed.

Lemma getlines_nil (s : string) (d : ascii) :
  getlines s d = [] <-> s = EmptyString.
Proof. unfold getlines. rewrite getlines_from_nil. tauto. Qed.

Lemma not_found_In (charsets : list string) (t : string) :
  not_found charsets t = false <-> In t charsets.
Proof.
  unfold not_found. rewrite negb_false_iff, existsb_exists. split.
  - intros (x & Hx & E). apply String.eqb_eq in E. subst. exact Hx.
  - intros H. exists t. split; [exact H | apply String.eqb_refl].
Qed.

Lemma add_token_count (st : parse_state) (token : string) :
  count (add_token st token) = (count st + 1)%Z.
Proof.
  unfold add_token.
  destruct ((String.length token =? 0) && (count st =? 0)%Z); [reflexivity|].
  destruct (not_found (m_charsets st) token); [|reflexivity].
  destruct (definedTermToIconvCharset token) as [ch|]; [|reflexivity].
  destruct (negb (ch =? ASCII)%string); reflexivity.
Qed.

(** A token that is not empty is appended when it is declarable and new,
    and leaves the set as it is otherwise. *)
Lemma add_token_charsets (st : parse_state) (token : string) :
  token <> EmptyString ->
  m_charsets (add_token st token) =
  if not_found (m_charsets st) token && declarable token
  then (m_charsets st ++ [token])%list else m_charsets st.
Proof.
  intros Ht. unfold add_token, declarable.
  destruct token as [|c t]; [congruence|]. cbn [String.length Nat.eqb andb].
  destruct (not_found (m_charsets st) (String c t)); [|reflexivity].
  destruct (definedTermToIconvCharset (String c t)) as [ch|]; [|reflexivity].
  destruct (negb (ch =? ASCII)%string); reflexivity.
Qed.

Lemma parse_tokens_spec (tokens : list string) :
  Forall (fun raw => blank raw = false) tokens ->
  forall st, exists st',
    parse_tokens tokens st = Ok st' /\
    count st' = (count st + Z.of_nat (List.length tokens))%Z /\
    (m_charsets st' <> [] <->
     m_charsets st <> [] \/
     exists raw term, In raw tokens /\ normalizeTerm raw = Ok term /\
                      declarable term = true).
Proof.
  induction 1 as [|raw tokens Hraw Htokens IH]; intros st.
  - exists st. simpl. split; [reflexivity|]. split; [lia|].
    split; [tauto|]. intros [H|(r & t & [] & _)]. exact H.
  - cbn [parse_tokens]. unfold parse_token.
    assert (N : normalizeTerm raw = Ok (trimmed raw)).
    { unfold normalizeTerm. rewrite trimWhitespace_spec, Hraw. reflexivity. }
    rewrite N. cbn [bind].
    destruct (IH (add_token st (trimmed raw))) as (st' & E & C & M).
    exists st'. split; [exact E|]. split.
    { rewrite C, add_token_count. cbn [List.length]. lia. }
    rewrite M, add_token_charsets by (apply trimmed_nonempty; exact Hraw).
    split.
    + intros [H|(r & t & Hin & Hn & Hd)].
      * destruct (not_found (m_charsets st) (trimmed raw)) eqn:NF;
          destruct (declarable (trimmed raw)) eqn:D; cbn [andb] in H; auto.
        right. exists raw, (trimmed raw). split; [left; reflexivity|]. auto.
      * right. exists r, t. split; [right; exact Hin|]. auto.
    + intros [H|(r & t & [<-|Hin] & Hn & Hd)].
      * left. destruct (not_found (m_charsets st) (trimmed raw) &&
                        declarable (trimmed raw)); [|exact H].
        destruct (m_charsets st); discriminate.
      * rewrite N in Hn. injection Hn as <-. left. rewrite Hd, andb_true_r.
        destruct (not_found (m_charsets st) (trimmed raw)) eqn:NF.
        -- destruct (m_charsets st); discriminate.
        -- apply not_found_In in NF. destruct (m_charsets st); [destruct NF|].
           discriminate.
      * right. exists r, t. auto.
Qed.

(** C1 as stated fails: a declaration of unrecognized terms only, or of
    spellings of the default table only, leaves the working set empty, and
    the parser says so on [std::cerr]. *)
Lemma unrecognized_or_default_terms_leave_no_charset :
  ParseCharsetDeclaration "FOO" = Ok [] /\
  ParseCharsetDeclaration "ISO_IR 6" = Ok [] /\
  ParseCharsetDeclaration "ISO 2022 IR 6\ISO_IR 6" = Ok [] /\
  setSpecificCharacterSet "ISO_IR 6" =
    Ok (mk_parse_state 1 [] ["WARN: Found no suitable charsets!"]) /\
  ~ (exists ws, ParseCharsetDeclaration "ISO_IR 6" = Ok ws /\ ws <> []).
Proof.
  split; [reflexivity|]. split; [reflexivity|]. split; [reflexivity|].
  split; [reflexivity|].
  intros (ws & E & Hne). cbv in E. injection E as <-. apply Hne. reflexivity.
Qed.

(** *** The parser past the read of [term[-1]] *)

Lemma returns_token_blank (below : list ascii) (raw : string) :
  returns_token below raw = true -> blank raw = true ->
  raw = EmptyString /\ exists c more, below = c :: more /\ isspace c = false.
Proof.
  unfold returns_token. intros H B. rewrite B in H. cbn [negb orb] in H.
  destruct raw as [|a t]; [|discriminate].
  destruct below as [|c more]; [discriminate|].
  apply negb_true_iff in H. split; [reflexivity|]. exists c, more. auto.
Qed.

Lemma add_token_empty (st : parse_state) :
  m_charsets (add_token st EmptyString) =
  if (count st =? 0)%Z
  then (m_charsets st ++ [DEFAULT_ENCODING; DEFAULT_ISO_2022_ENCODING])%list
  else m_charsets st.
Proof.
  unfold add_token. cbn [String.length Nat.eqb andb].
  destruct (count st =? 0)%Z; [reflexivity|].
  destruct (not_found (m_charsets st) EmptyString); reflexivity.
Qed.

(** The only thing the loop writes to [std::cerr] is the warning about a
    duplicate. *)
Lemma add_token_cerr (st : parse_state) (token w : string) :
  In w (cerr (add_token st token)) ->
  In w (cerr st) \/
  w = append "WARN: Found duplicate charset '" (append token "'; ignoring").
Proof.
  unfold add_token.
  destruct ((String.length token =? 0) && (count st =? 0)%Z); [auto|].
  destruct (not_found (m_charsets st) token).
  - destruct (definedTermToIconvCharset token) as [ch|]; [|auto].
    destruct (negb (ch =? ASCII)%string); auto.
  - cbn [cerr]. intros H. apply in_app_or in H as [H|[H|[]]]; auto.
Qed.

Lemma duplicate_warning_differs (token : string) :
  "WARN: Found no suitable charsets!" <>
  append "WARN: Found duplicate charset '" (append token "'; ignoring").
Proof. cbn [append]. intros E. discriminate E. Qed.

(** What one pass of the loop does to the set, for a token that
    [normalizeTerm] returns a result for. *)
Lemma add_token_nonempty (below : list ascii) (st : parse_state)
      (raw : string) :
  returns_token below raw = true ->
  (m_charsets
     (add_token st (if blank raw then EmptyString else trimmed raw)) <> [] <->
   m_charsets st <> [] \/
   (count st = 0%Z /\ raw = EmptyString) \/
   exists term, normalizeTerm raw = Ok term /\ declarable term = true).
Proof.
  intros Hr. unfold normalizeTerm. rewrite trimWhitespace_spec.
  destruct (blank raw) eqn:B.
  - destruct (returns_token_blank _ _ Hr B) as [-> _].
    rewrite add_token_empty.
    destruct (Z.eqb_spec (count st) 0) as [C|C].
    + split; [auto|]. intros _. destruct (m_charsets st); discriminate.
    + split; [auto|]. intros [H|[[H _]|(t & H & _)]];
        [exact H | contradiction | discriminate].
  - assert (Hne : raw <> EmptyString) by (intros ->; discriminate).
    rewrite add_token_charsets by (apply trimmed_nonempty; exact B).
    split.
    + intros H.
      destruct (not_found (m_charsets st) (trimmed raw)) eqn:NF;
        destruct (declarable (trimmed raw)) eqn:D; cbn [andb] in H; auto.
      right. right. exists (trimmed raw). auto.
    + intros [H|[[_ H]|(t & H & D)]]; [|contradiction|].
      * destruct (not_found (m_charsets st) (trimmed raw) &&
                  declarable (trimmed raw)); [|exact H].
        destruct (m_charsets st); discriminate.
      * injection H as <-. rewrite D, andb_true_r.
        destruct (not_found (m_charsets st) (trimmed raw)) eqn:NF.
        -- destruct (m_charsets st); discriminate.
        -- apply not_found_In in NF. destruct (m_charsets st); [destruct NF|].
           discriminate.
Qed.

Lemma parse_tokens_with_spec (below : Z -> list ascii) (tokens : list string) :
  forall st,
    (0 <= count st)%Z ->
    all_return below (count st) tokens ->
    exists st',
      parse_tokens_with below tokens st = Ok st' /\
      count st' = (count st + Z.of_nat (List.length tokens))%Z /\
      (m_charsets st' <> [] <->
       m_charsets st <> [] \/
       (count st = 0%Z /\ exists rest, tokens = EmptyString :: rest) \/
       exists raw term, In raw tokens /\ normalizeTerm raw = Ok term /\
                        declarable term = true) /\
      (forall w, In w (cerr st') ->
                 In w (cerr st) \/
                 exists token,
                   w = append "WARN: Found duplicate charset '"
                         (append token "'; ignoring")).
Proof.
  induction tokens as [|raw tokens IH]; intros st Hc Hall.
  - exists st. split; [reflexivity|]. split; [cbn [List.length]; lia|].
    split; [|auto]. split; [auto|].
    intros [H|[(_ & rest & H)|(r & t & [] & _)]]; [exact H|discriminate H].
  - destruct Hall as [Hr Hall].
    cbn [parse_tokens_with]. unfold parse_token_with.
    rewrite (normalizeTerm_with_returns _ _ Hr). cbn [bind].
    set (token := if blank raw then EmptyString else trimmed raw).
    destruct (IH (add_token st token)) as (st' & E & C & M & W).
    { rewrite add_token_count. lia. }
    { rewrite add_token_count. exact Hall. }
    rewrite add_token_count in C.
    exists st'. split; [exact E|]. split; [cbn [List.length]; lia|]. split.
    + rewrite M. unfold token. rewrite (add_token_nonempty _ st raw Hr).
      rewrite add_token_count. split.
      * intros [[H|[[H1 H2]|(t & H1 & H2)]]|[[H _]|(r & t & H1 & H2)]].
        -- auto.
        -- right. left. split; [exact H1|]. exists tokens. rewrite H2.
           reflexivity.
        -- right. right. exists raw, t. split; [left; reflexivity|]. auto.
        -- lia.
        -- right. right. exists r, t. split; [right; exact H1|]. exact H2.
      * intros [H|[(H1 & rest & H2)|(r & t & [<-|H1] & H2)]].
        -- auto.
        -- injection H2 as -> _. auto.
        -- left. right. right. exists t. exact H2.
        -- right. right. exists r, t. auto.
    + intros w Hw. apply W in Hw as [Hw|Hw]; [|auto].
      apply add_token_cerr in Hw as [Hw|Hw]; [auto|].
      right. exists token. exact Hw.
Qed.

(** The converse: the loop comes to its end only when [normalizeTerm]
    returned a result for every token. *)
Lemma parse_tokens_with_returns (below : Z -> list ascii)
      (tokens : list string) :
  forall st st',
    parse_tokens_with below tokens st = Ok st' ->
    all_return below (count st) tokens.
Proof.
  induction tokens as [|raw tokens IH]; intros st st'; [constructor|].
  cbn [parse_tokens_with all_return]. unfold parse_token_with.
  destruct (returns_token (below (count st)) raw) eqn:Hr.
  - rewrite (normalizeTerm_with_returns _ _ Hr). cbn [bind].
    intros H. apply IH in H. rewrite add_token_count in H. auto.
  - destruct (normalizeTerm_with_throws _ _ Hr) as [f ->]. discriminate.
Qed.

(** Where the parser returns without a read outside a token, the execution
    past such reads returns the same. *)
Lemma parse_tokens_with_agrees (below : Z -> list ascii)
      (tokens : list string) :
  forall st st',
    parse_tokens tokens st = Ok st' ->
    parse_tokens_with below tokens st = Ok st'.
Proof.
  induction tokens as [|raw tokens IH]; intros st st'; [auto|].
  cbn [parse_tokens parse_tokens_with]. unfold parse_token, parse_token_with.
  destruct (normalizeTerm raw) as [token|f] eqn:N; [|discriminate].
  rewrite (normalizeTerm_with_agrees _ _ _ N). cbn [bind]. apply IH.
Qed.

Lemma setSpecificCharacterSet_with_agrees (below : Z -> list ascii)
      (spcharsets : string) (st : parse_state) :
  setSpecificCharacterSet spcharsets = Ok st ->
  setSpecificCharacterSet_with below spcharsets = Ok st.
Proof.
  unfold setSpecificCharacterSet, setSpecificCharacterSet_with.
  destruct (parse_tokens (getlines (c_str spcharsets) BACKSLASH)
              (mk_parse_state 0 [] [])) as [st0|f] eqn:E; [|discriminate].
  rewrite (parse_tokens_with_agrees below _ _ _ E). auto.
Qed.

Lemma setSpecificCharacterSet_returns (spcharsets : string) :
  Forall (fun raw => blank raw = false)
         (getlines (c_str spcharsets) BACKSLASH) ->
  exists st, setSpecificCharacterSet spcharsets = Ok st.
Proof.
  intros H. unfold setSpecificCharacterSet.
  destruct (parse_tokens_spec _ H (mk_parse_state 0 [] [])) as (st & E & _).
  rewrite E. cbn [bind].
  match goal with
  | |- exists st, (if ?c then _ else _) = _ => destruct c
  end; eexists; reflexivity.
Qed.

(** C1, amended: for every attribute value whose tokens [normalizeTerm]
    returns a result for (each holds a character that is not whitespace, or
    is empty with a byte before it that is not whitespace), the parser
    returns, and the working set has at least one element exactly when the
    value is fully empty, or its first token is empty, or one of its tokens,
    trimmed, is a recognized term other than a spelling of the default
    table; the warning "Found no suitable charsets!" is written exactly when
    the set is left empty.  Where no token is empty this is the result of
    [setSpecificCharacterSet], reached without a read outside a token. *)
Theorem declaration_leaves_a_charset_iff
        (below : Z -> list ascii) (spcharsets : string) :
  all_return below 0 (getlines (c_str spcharsets) BACKSLASH) ->
  exists st,
    setSpecificCharacterSet_with below spcharsets = Ok st /\
    ParseCharsetDeclaration_with below spcharsets = Ok (m_charsets st) /\
    (m_charsets st <> [] <->
     c_str spcharsets = EmptyString \/
     (exists rest,
         getlines (c_str spcharsets) BACKSLASH = EmptyString :: rest) \/
     exists raw term,
       In raw (getlines (c_str spcharsets) BACKSLASH) /\
       normalizeTerm raw = Ok term /\ declarable term = true) /\
    (m_charsets st = [] <->
     In "WARN: Found no suitable charsets!" (cerr st)) /\
    (Forall (fun raw => blank raw = false)
            (getlines (c_str spcharsets) BACKSLASH) ->
     setSpecificCharacterSet spcharsets = Ok st).
Proof.
  intros Htokens.
  assert (K : exists st,
             setSpecificCharacterSet_with below spcharsets = Ok st /\
             (m_charsets st <> [] <->
              c_str spcharsets = EmptyString \/
              (exists rest,
                  getlines (c_str spcharsets) BACKSLASH = EmptyString :: rest) \/
              exists raw term,
                In raw (getlines (c_str spcharsets) BACKSLASH) /\
                normalizeTerm raw = Ok term /\ declarable term = true) /\
             (m_charsets st = [] <->
              In "WARN: Found no suitable charsets!" (cerr st))).
  { unfold setSpecificCharacterSet_with.
    destruct (parse_tokens_with_spec below _ (mk_parse_state 0 [] [])
                ltac:(cbn [count]; lia) Htokens) as (st & E & C & M & W).
    rewrite E. cbn [bind]. cbn [count m_charsets cerr] in C, M, W.
    assert (Wn : ~ In "WARN: Found no suitable charsets!" (cerr st)).
    { intros H. apply W in H as [[]|[token H]].
      exact (duplicate_warning_differs token H). }
    destruct (getlines (c_str spcharsets) BACKSLASH) as [|t0 ts] eqn:G.
    - apply getlines_nil in G.
      cbn [List.length] in C. rewrite C. cbn [Z.add Z.of_nat Z.eqb].
      cbn [m_charsets].
      assert (L : forall l : list string,
                 (List.length (l ++ [DEFAULT_ENCODING]) =? 0) = false).
      { intros l. rewrite List.length_app. cbn [List.length].
        apply Nat.eqb_neq. lia. }
      rewrite L. eexists. split; [reflexivity|]. cbn [m_charsets cerr].
      split; [split; [auto|]|split].
      + intros _. destruct (m_charsets st); discriminate.
      + destruct (m_charsets st); discriminate.
      + intros H. contradiction.
    - assert (Cz : (count st =? 0)%Z = false).
      { apply Z.eqb_neq. rewrite C. cbn [List.length]. lia. }
      rewrite Cz.
      assert (Hm : m_charsets st <> [] <->
                   c_str spcharsets = EmptyString \/
                   (exists rest, t0 :: ts = EmptyString :: rest) \/
                   exists raw term,
                     In raw (t0 :: ts) /\
                     normalizeTerm raw = Ok term /\ declarable term = true).
      { rewrite M. split.
        - intros [H|[[_ H]|H]]; [congruence | auto | auto].
        - intros [H|[H|H]]; [|auto|auto].
          rewrite H in G. discriminate G. }
      destruct (m_charsets st) as [|m ms] eqn:Hms; cbn [List.length Nat.eqb].
      + eexists. split; [reflexivity|]. cbn [m_charsets cerr].
        split; [exact Hm|]. split; [|reflexivity].
        intros _. apply in_or_app. right. left. reflexivity.
      + exists st. split; [reflexivity|]. rewrite Hms.
        split; [exact Hm|]. split; [discriminate|]. intros H. contradiction. }
  destruct K as (st & E & Hm & Hw).
  exists st. split; [exact E|]. split.
  { unfold ParseCharsetDeclaration_with. rewrite E. reflexivity. }
  split; [exact Hm|]. split; [exact Hw|].
  intros Hnb. destruct (setSpecificCharacterSet_returns _ Hnb) as [st2 E2].
  pose proof (setSpecificCharacterSet_with_agrees below _ _ E2) as E3.
  rewrite E in E3. injection E3 as <-. exact E2.
Qed.

Lemma declaration_leaves_a_charset_iff_witness :
  let below := fun _ : Z => [NUL] in
  let value := "\ ISO_IR 100\\FOO\ISO_IR 100" in
  all_return below 0 (getlines (c_str value) BACKSLASH) /\
  exists st,
    setSpecificCharacterSet_with below value = Ok st /\
    ParseCharsetDeclaration_with below value = Ok (m_charsets st) /\
    (m_charsets st <> [] <->
     c_str value = EmptyString \/
     (exists rest, getlines (c_str value) BACKSLASH = EmptyString :: rest) \/
     exists raw term,
       In raw (getlines (c_str value) BACKSLASH) /\
       normalizeTerm raw = Ok term /\ declarable term = true) /\
    (m_charsets st = [] <->
     In "WARN: Found no suitable charsets!" (cerr st)) /\
    (Forall (fun raw => blank raw = false) (getlines (c_str value) BACKSLASH) ->
     setSpecificCharacterSet value = Ok st).
Proof.
  intros below value.
  assert (H : all_return below 0 (getlines (c_str value) BACKSLASH)).
  { cbv. tauto. }
  split; [exact H|].
  exact (declaration_leaves_a_charset_iff below value H).
Defined.

(** The parser on values with an empty token, the byte before each empty
    token being NUL: a leading empty token stands for the default table, an
    empty token further on is passed over, and a repeated term is reported. *)
Example empty_tokens_in_a_declaration :
  let below := fun _ : Z => [NUL] in
  setSpecificCharacterSet_with below "\ ISO_IR 100\\FOO\ISO_IR 100" =
    Ok (mk_parse_state 5 ["ISO_IR 6"; "ISO 2022 IR 6"; "ISO_IR 100"]
          ["WARN: Found duplicate charset 'ISO_IR 100'; ignoring"]) /\
  ParseCharsetDeclaration_with below "ISO_IR 100\\ISO_IR 101" =
    Ok ["ISO_IR 100"; "ISO_IR 101"] /\
  setSpecificCharacterSet_with below "\" =
    Ok (mk_parse_state 1 ["ISO_IR 6"; "ISO 2022 IR 6"] []) /\
  setSpecificCharacterSet_with below "FOO\" =
    Ok (mk_parse_state 1 [] ["WARN: Found no suitable charsets!"]) /\
  ParseCharsetDeclaration_with below " " = Fault InvalidRange /\
  ParseCharsetDeclaration_with below "ISO_IR 100\ \ISO_IR 101" =
    Fault InvalidRange.
Proof. repeat split. Qed.



(** C8: the fully empty attribute value yields the working set that holds
    the default plain term "ISO_IR 6" and nothing else; so does every value
    whose C string is empty. *)
Theorem empty_declaration_yields_default_term :
  ParseCharsetDeclaration "" = Ok ["ISO_IR 6"] /\
  DEFAULT_ENCODING = "ISO_IR 6" /\
  DEFAULT_ENCODING <> DEFAULT_ISO_2022_ENCODING /\
  getlines "" BACKSLASH = [] /\
  (forall spcharsets,
      ParseCharsetDeclaration (String NUL spcharsets) = Ok [DEFAULT_ENCODING]).
Proof.
  split; [reflexivity|]. split; [reflexivity|]. split; [discriminate|].
  split; reflexivity.
Qed.

(** ** findEsc *)

Lemma findEsc_loop_ge (str : string) (len pos n : nat) :
  pos <= findEsc_loop str len pos n.
Proof.
  revert pos. induction n as [|n IH]; intros pos; simpl; [lia|].
  destruct ((pos <? len) && negb (char_eq (char_at str pos) 27)); [|lia].
  specialize (IH (S pos)). lia.
Qed.

Lemma findEsc_loop_le (str : string) (len pos n : nat) :
  pos <= len -> findEsc_loop str len pos n <= len.
Proof.
  revert pos. induction n as [|n IH]; intros pos Hp; simpl; [lia|].
  destruct (Nat.ltb_spec pos len); simpl; [|lia].
  destruct (negb (char_eq (char_at str pos) 27)); [|lia].
  apply IH. lia.
Qed.

(** No byte of the fragment after its first is a marker, and the fragment
    ends on a marker or at the end of the input. *)
Lemma findEsc_loop_spec (str : string) (len pos n : nat) :
  len <= pos + n ->
  let r := findEsc_loop str len pos n in
  (forall i, pos <= i -> i < r -> char_eq (char_at str i) 27 = false) /\
  (r < len -> char_eq (char_at str r) 27 = true).
Proof.
  revert pos. induction n as [|n IH]; intros pos Hn; simpl.
  - split; intros; lia.
  - destruct (Nat.ltb_spec pos len); simpl.
    + destruct (char_eq (char_at str pos) 27) eqn:E; simpl.
      * split; [intros; lia | auto].
      * destruct (IH (S pos)) as [A B]; [lia|]. split; [|exact B].
        intros i H1 H2. destruct (Nat.eq_dec i pos) as [->|]; [exact E|].
        apply A; lia.
    + split; intros; lia.
Qed.

Lemma findEsc_bounds (str : string) (len pos : nat) :
  pos <= len -> pos <= findEsc str len pos /\ findEsc str len pos <= len.
Proof.
  intros H. unfold findEsc.
  split; [apply findEsc_loop_ge | apply findEsc_loop_le; exact H].
Qed.

Lemma findEsc_spec (str : string) (len pos : nat) :
  pos <= len ->
  (forall i, pos <= i -> i < findEsc str len pos ->
             char_eq (char_at str i) 27 = false) /\
  (findEsc str len pos < len ->
   char_eq (char_at str (findEsc str len pos)) 27 = true).
Proof.
  intros H. unfold findEsc. apply findEsc_loop_spec. lia.
Qed.

(** A run of bytes that are not markers lies inside the fragment. *)
Lemma findEsc_skips (str : string) (len pos k : nat) :
  pos + k <= len ->
  (forall i, pos <= i -> i < pos + k -> char_eq (char_at str i) 27 = false) ->
  pos + k <= findEsc str len pos.
Proof.
  intros Hk Hfree.
  destruct (findEsc_bounds str len pos) as [Hge Hle]; [lia|].
  destruct (findEsc_spec str len pos) as [_ Hm]; [lia|].
  destruct (Nat.lt_ge_cases (findEsc str len pos) (pos + k)) as [Hlt|]; [|lia].
  rewrite Hfree in Hm; [|lia|lia]. specialize (Hm ltac:(lia)). discriminate.
Qed.

(** ** The copy of the input and the result buffer *)

Lemma length_zeros (n : nat) : String.length (zeros n) = n.
Proof. induction n; simpl; congruence. Qed.

Lemma get_zeros (n i : nat) (c : ascii) : get i (zeros n) = Some c -> c = NUL.
Proof.
  revert i. induction n as [|n IH]; intros [|i]; simpl; try discriminate.
  - congruence.
  - apply IH.
Qed.

Lemma length_strncpy (src : string) (n : nat) :
  String.length (strncpy src n) = n.
Proof.
  revert src. induction n as [|n IH]; intros src; [reflexivity|].
  cbn [strncpy]. destruct src as [|c src]; [apply length_zeros|].
  destruct (Ascii.eqb c NUL); [apply length_zeros|].
  simpl. rewrite IH. reflexivity.
Qed.

(** A byte of the copy that is not NUL is the byte of the input there. *)
Lemma get_strncpy (src : string) (n i : nat) (c : ascii) :
  get i (strncpy src n) = Some c -> c <> NUL -> get i src = Some c.
Proof.
  revert src i. induction n as [|n IH]; intros src i H Hc;
    [destruct i; discriminate|].
  cbn [strncpy] in H. destruct src as [|a src].
  - apply get_zeros in H. congruence.
  - destruct (Ascii.eqb a NUL); [apply get_zeros in H; congruence|].
    destruct i as [|i]; simpl in *; [exact H | apply IH; assumption].
Qed.

(** An input without a NUL byte is copied as it is. *)
Lemma strncpy_no_nul (src : string) :
  c_str src = src -> strncpy src (String.length src) = src.
Proof.
  induction src as [|c src IH]; [reflexivity|]. simpl.
  destruct (Ascii.eqb c NUL); [discriminate|].
  intros H. injection H as H. rewrite IH; auto.
Qed.

Lemma string_of_cstr_zeros (w : string) (k : nat) :
  string_of_cstr (w ++ zeros (S k)) = Ok (c_str w).
Proof.
  induction w as [|c w IH]; [reflexivity|].
  cbn [append string_of_cstr c_str].
  destruct (Ascii.eqb c NUL); [reflexivity|]. rewrite IH. reflexivity.
Qed.

Lemma utf8len_small (len : nat) :
  (Z.of_nat len * 4 < 2147483648)%Z ->
  utf8len_of len = (Z.of_nat len * 4)%Z.
Proof.
  intros H. unfold utf8len_of, int_of_size.
  rewrite Z.mod_small by lia. lia.
Qed.

(** ** The scan *)

Section ScanFacts.

Context {IC : Iconv}.
Variables (charsets : list string) (str copiedStr : string) (len : nat).

Lemma convert_fits (u : nat) (st : scan_state) (inbuf : string) (next : nat) :
  fits u st -> fits u (convert st inbuf next).
Proof.
  unfold fits, convert. cbn [written outbytesleft].
  pose proof (iconv_fits (cd st) inbuf (outbytesleft st)).
  rewrite length_app. lia.
Qed.

Lemma finish_fits (u : nat) (st : scan_state) :
  fits u st ->
  finish u st = Ok (mk_decoded (c_str (written st)) (calls st)).
Proof.
  unfold fits, finish. intros H.
  replace (u + 1 - String.length (written st))
    with (S (u - String.length (written st))) by lia.
  rewrite string_of_cstr_zeros. reflexivity.
Qed.

Lemma next_fragment_cursor (st : scan_state) :
  fragmentStart (next_fragment str copiedStr len st)
  = findEsc str len (fragmentStart st + 1).
Proof. reflexivity. Qed.

Lemma switch_table_progress (st st' : scan_state) :
  switch_table charsets copiedStr len st = Ok (Continue st') ->
  fragmentStart st <= fragmentStart st'.
Proof.
  unfold switch_table.
  destruct (fragmentStart st <? len); [|intros H; injection H as <-; lia].
  destruct (iso2022EscSelectCharset _) as [t|]; cbn [bind]; [|discriminate].
  destruct (definedTermToIconvCharset t) as [cs|]; [|discriminate].
  destruct (not_found charsets t); [discriminate|].
  destruct (negb (iconv_close (cd st))); [discriminate|].
  destruct (iconv_open cs) as [h|]; [|discriminate].
  destruct (negb (is_iso2022_jp cs)).
  - destruct (iso2022EscSeqLength _) as [n|]; cbn [bind]; [|discriminate].
    intros H. injection H as <-. simpl. lia.
  - intros H. injection H as <-. simpl. lia.
Qed.

Lemma switch_table_fits (u : nat) (st : scan_state) (r : pass) :
  fits u st ->
  switch_table charsets copiedStr len st = Ok r ->
  match r with Break st' | Continue st' => fits u st' end.
Proof.
  intros F. unfold switch_table.
  destruct (fragmentStart st <? len); [|intros H; injection H as <-; exact F].
  destruct (iso2022EscSelectCharset _) as [t|]; cbn [bind]; [|discriminate].
  destruct (definedTermToIconvCharset t) as [cs|];
    [|intros H; injection H as <-; exact F].
  destruct (not_found charsets t); [intros H; injection H as <-; exact F|].
  destruct (negb (iconv_close (cd st)));
    [intros H; injection H as <-; exact F|].
  destruct (iconv_open cs) as [h|]; [|intros H; injection H as <-; exact F].
  destruct (negb (is_iso2022_jp cs)).
  - destruct (iso2022EscSeqLength _) as [n|]; cbn [bind]; [|discriminate].
    intros H. injection H as <-. exact F.
  - intros H. injection H as <-. exact F.
Qed.

Lemma scan_body_progress (st st' : scan_state) :
  fragmentStart st < len ->
  scan_body charsets str copiedStr len st = Ok (Continue st') ->
  fragmentStart st < fragmentStart st'.
Proof.
  intros Hlt H. apply switch_table_progress in H.
  rewrite next_fragment_cursor in H.
  destruct (findEsc_bounds str len (fragmentStart st + 1)); lia.
Qed.

Lemma scan_body_fits (u : nat) (st : scan_state) (r : pass) :
  fits u st ->
  scan_body charsets str copiedStr len st = Ok r ->
  match r with Break st' | Continue st' => fits u st' end.
Proof.
  intros F. apply switch_table_fits. apply convert_fits. exact F.
Qed.

(** The result of the scan does not depend on the bound, once the bound
    covers the bytes left. *)
Lemma scan_fuel (f1 f2 : nat) (st : scan_state) :
  len - fragmentStart st <= f1 -> len - fragmentStart st <= f2 ->
  scan charsets str copiedStr len f1 st = scan charsets str copiedStr len f2 st.
Proof.
  revert f2 st. induction f1 as [|f1 IH]; intros f2 st H1 H2.
  - destruct f2; simpl; destruct (Nat.ltb_spec (fragmentStart st) len);
      simpl; try reflexivity; lia.
  - simpl. destruct (Nat.ltb_spec (fragmentStart st) len); simpl;
      [|destruct f2; simpl;
        destruct (Nat.ltb_spec (fragmentStart st) len); simpl;
        try reflexivity; lia].
    destruct f2 as [|f2]; [lia|]. simpl.
    destruct (Nat.ltb_spec (fragmentStart st) len); [|lia]. simpl.
    destruct (scan_body charsets str copiedStr len st) as [[st'|st']|] eqn:B;
      cbn [bind]; try reflexivity.
    pose proof (scan_body_progress st st' ltac:(lia) B).
    apply IH; lia.
Qed.

Lemma scan_done (fuel : nat) (st : scan_state) :
  len <= fragmentStart st ->
  scan charsets str copiedStr len fuel st = Ok st.
Proof.
  intros H. destruct fuel; simpl;
    destruct (Nat.ltb_spec (fragmentStart st) len); simpl;
    try reflexivity; lia.
Qed.

Lemma scan_unfold (fuel : nat) (st : scan_state) :
  fragmentStart st < len -> len - fragmentStart st <= fuel ->
  scan charsets str copiedStr len fuel st =
  (r <- scan_body charsets str copiedStr len st ;;
   match r with
   | Break st' => Ok st'
   | Continue st' =>
       scan charsets str copiedStr len (len - fragmentStart st') st'
   end).
Proof.
  intros Hlt Hf. destruct fuel as [|fuel]; [lia|]. simpl.
  destruct (Nat.ltb_spec (fragmentStart st) len); [|lia]. simpl.
  destruct (scan_body charsets str copiedStr len st) as [[st'|st']|] eqn:B;
    cbn [bind]; try reflexivity.
  pose proof (scan_body_progress st st' Hlt B).
  apply scan_fuel; lia.
Qed.

(** A scan that starts in [st0] and reaches [st] ends as the scan from
    [st] does. *)
Lemma scan_reaches (st0 st : scan_state) (fuel : nat) :
  reaches charsets str copiedStr len st0 st ->
  len - fragmentStart st0 <= fuel ->
  scan charsets str copiedStr len fuel st0 =
  scan charsets str copiedStr len (len - fragmentStart st) st.
Proof.
  intros R Hf. induction R as [|st st' R IH Hlt B].
  - apply scan_fuel; lia.
  - rewrite IH, scan_unfold by lia. rewrite B. reflexivity.
Qed.

Lemma reaches_fits (u : nat) (st0 st : scan_state) :
  reaches charsets str copiedStr len st0 st -> fits u st0 -> fits u st.
Proof.
  intros R F. induction R as [|st st' R IH Hlt B]; [exact F|].
  exact (scan_body_fits u st (Continue st') IH B).
Qed.

End ScanFacts.

(** ** Recognized escape sequences *)

Lemma char_eq_graphic (c : ascii) (v : Z) :
  char_eq c v = true -> (32 < v < 127)%Z -> graphic c = true.
Proof.
  intros E Hv. unfold char_eq, char_val in E. apply Z.eqb_eq in E.
  unfold graphic. pose proof (nat_ascii_bounded c).
  destruct (Z.ltb_spec (Z.of_nat (nat_of_ascii c)) 128); [|lia].
  apply andb_true_iff. split; apply Nat.ltb_lt; lia.
Qed.

Lemma char_eq_excl (c : ascii) (v w : Z) :
  char_eq c v = true -> char_eq c w = true -> v = w.
Proof.
  unfold char_eq. intros E1 E2. apply Z.eqb_eq in E1, E2. lia.
Qed.

Lemma graphic_not_marker (c : ascii) :
  graphic c = true -> char_eq c 27 = false /\ c <> NUL.
Proof.
  unfold graphic. intros H. apply andb_true_iff in H as [H1 H2].
  apply Nat.ltb_lt in H1, H2. split.
  - rewrite char_eq_ascii by lia. apply Nat.eqb_neq.
    change (Z.to_nat 27) with 27. lia.
  - intros ->. cbv in H1. lia.
Qed.

Ltac absurd_chars :=
  match goal with
  | H1 : char_eq ?c ?v = true, H2 : char_eq ?c ?w = true |- _ =>
      exfalso; pose proof (char_eq_excl c v w H1 H2); discriminate
  end.

Ltac case_char c v :=
  destruct (char_eq c v) eqn:?; try absurd_chars.

Lemma char_eq_const (c : ascii) (v : Z) :
  char_eq c v = true -> (0 <= v < 128)%Z -> c = ascii_of_nat (Z.to_nat v).
Proof.
  intros E Hv. rewrite char_eq_ascii in E by exact Hv.
  apply Nat.eqb_eq in E. rewrite <- E. symmetry. apply ascii_nat_embedding.
Qed.

(** A selection that returns a term has matched one of the sequences of
    the table: the bytes after the marker are its text, they are graphic,
    and [iso2022EscSeqLength] is the number of these bytes. *)
Lemma select_inv (seq : nat -> outcome ascii) (term : string) :
  iso2022EscSelectCharset seq = Ok term -> term <> EmptyString ->
  exists text,
    In (text, term) escape_sequences /\
    iso2022EscSeqLength seq = Ok (String.length text) /\
    (String.length text = 2 \/ String.length text = 3) /\
    forall k c, get k text = Some c -> seq k = Ok c /\ graphic c = true.
Proof.
  unfold iso2022EscSelectCharset, iso2022EscSeqLength, cond, and_then,
    or_else, seq_eq, seq_ge, seq_le.
  destruct (seq 0) as [c0|f0] eqn:S0; cbn [bind]; [|discriminate].
  case_char c0 40%Z; case_char c0 45%Z; case_char c0 36%Z; case_char c0 41%Z;
    cbn [bind];
    try (intros H N; injection H as <-; congruence);
    (destruct (seq 1) as [c1|f1] eqn:S1; cbn [bind]; [|discriminate]);
    repeat match goal with
           | |- context [if char_eq c1 ?v then _ else _] =>
               case_char c1 v; cbn [bind]
           end;
    try (intros H N; injection H as <-; congruence);
    try (destruct (seq 2) as [c2|f2] eqn:S2; cbn [bind]; [|discriminate];
         repeat match goal with
                | |- context [if char_eq c2 ?v then _ else _] =>
                    case_char c2 v; cbn [bind]
                end);
    try (intros H N; injection H as <-; congruence).
  all: intros H _; injection H as <-.
  all: first [ exists (String c0 (String c1 (String c2 EmptyString)))
             | exists (String c0 (String c1 EmptyString)) ].
  all: repeat match goal with
              | H : char_eq ?c ?v = true |- _ =>
                  pose proof (char_eq_const c v H ltac:(lia)); clear H; subst c
              end.
  all: split;
    [cbn [escape_sequences In]; repeat (first [left; reflexivity | right])|].
  all: split; [reflexivity|].
  all: split; [first [left; reflexivity | right; reflexivity]|].
  all: intros [|[|[|k]]] c G; cbn in G; try discriminate G;
    injection G as <-; (split; [assumption | reflexivity]).
Qed.

(** A fault of the selection is a fault of one of its reads. *)
Lemma faults_within_bind {A B : Type} (P : fault -> Prop)
      (m : outcome A) (k : A -> outcome B) :
  faults_within P m -> (forall a, faults_within P (k a)) ->
  faults_within P (bind m k).
Proof.
  unfold faults_within. intros Hm Hk f. destruct m as [a|g]; simpl.
  - apply Hk.
  - intros E. injection E as <-. apply Hm. reflexivity.
Qed.

Lemma faults_within_ok {A : Type} (P : fault -> Prop) (a : A) :
  faults_within P (Ok a).
Proof. intros f E. discriminate. Qed.

Lemma select_faults (P : fault -> Prop) (seq : nat -> outcome ascii) :
  (forall k, faults_within P (seq k)) ->
  faults_within P (iso2022EscSelectCharset seq).
Proof.
  intros H.
  unfold iso2022EscSelectCharset, cond, and_then, or_else, seq_eq.
  repeat first
    [ apply faults_within_ok
    | apply H
    | apply faults_within_bind; [|intros []]
    | apply faults_within_bind; [|intros ?] ].
Qed.

Lemma length_faults (P : fault -> Prop) (seq : nat -> outcome ascii) :
  (forall k, faults_within P (seq k)) ->
  faults_within P (iso2022EscSeqLength seq).
Proof.
  intros H.
  unfold iso2022EscSeqLength, cond, and_then, seq_eq, seq_ge, seq_le.
  repeat first
    [ apply faults_within_ok
    | apply H
    | apply faults_within_bind; [|intros []]
    | apply faults_within_bind; [|intros ?] ].
Qed.

Lemma peek_faults (buf : string) (i : nat) :
  faults_within (fun f => f <> OutOfFuel) (peek buf i).
Proof.
  intros f. unfold peek. destruct (get i buf); [discriminate|].
  destruct (i =? String.length buf); intros E; injection E as <-; discriminate.
Qed.

(** ** The decoder *)

Section DecoderFacts.

Context {IC : Iconv}.
Variables (charsets : list string) (str copiedStr : string) (len : nat).

Lemma switch_table_calls (st : scan_state) (r : pass) :
  switch_table charsets copiedStr len st = Ok r ->
  match r with Break st' | Continue st' => calls st' = calls st end.
Proof.
  unfold switch_table.
  destruct (fragmentStart st <? len);
    [|intros H; injection H as <-; reflexivity].
  destruct (iso2022EscSelectCharset _) as [t|]; cbn [bind]; [|discriminate].
  destruct (definedTermToIconvCharset t) as [cs|];
    [|intros H; injection H as <-; reflexivity].
  destruct (not_found charsets t);
    [intros H; injection H as <-; reflexivity|].
  destruct (negb (iconv_close (cd st)));
    [intros H; injection H as <-; reflexivity|].
  destruct (iconv_open cs) as [h|];
    [|intros H; injection H as <-; reflexivity].
  destruct (negb (is_iso2022_jp cs)).
  - destruct (iso2022EscSeqLength _) as [n|]; cbn [bind]; [|discriminate].
    intros H. injection H as <-. reflexivity.
  - intros H. injection H as <-. reflexivity.
Qed.

(** The calls already made stay at the head of the list. *)
Lemma scan_calls (fuel : nat) (st st' : scan_state) :
  scan charsets str copiedStr len fuel st = Ok st' ->
  exists more, calls st' = (calls st ++ more)%list.
Proof.
  revert st. induction fuel as [|fuel IH]; intros st; simpl.
  - destruct (negb (fragmentStart st <? len)); [|discriminate].
    intros H. injection H as <-. exists []. rewrite app_nil_r. reflexivity.
  - destruct (negb (fragmentStart st <? len)).
    + intros H. injection H as <-. exists []. rewrite app_nil_r. reflexivity.
    + destruct (scan_body charsets str copiedStr len st) as [r|] eqn:B;
        cbn [bind]; [|discriminate].
      pose proof (switch_table_calls _ _ B) as C.
      destruct r as [st1|st1].
      * intros H. injection H as <-. rewrite C. simpl. eexists. reflexivity.
      * intros H. apply IH in H as [more H]. rewrite H, C. simpl.
        rewrite <- app_assoc. eexists. reflexivity.
Qed.

Lemma switch_table_no_out_of_fuel (st : scan_state) :
  switch_table charsets copiedStr len st <> Fault OutOfFuel.
Proof.
  unfold switch_table. destruct (fragmentStart st <? len); [|discriminate].
  set (escSeq := fun k => peek copiedStr (fragmentStart st + 1 + k)).
  assert (S : forall k, faults_within (fun f => f <> OutOfFuel) (escSeq k))
    by (intros k; apply peek_faults).
  pose proof (select_faults _ _ S) as F1.
  pose proof (length_faults _ _ S) as F2.
  destruct (iso2022EscSelectCharset escSeq) as [t|f]; cbn [bind];
    [|intros E; exact (F1 f eq_refl ltac:(congruence))].
  destruct (definedTermToIconvCharset t) as [cs|]; [|discriminate].
  destruct (not_found charsets t); [discriminate|].
  destruct (negb (iconv_close (cd st))); [discriminate|].
  destruct (iconv_open cs) as [h|]; [|discriminate].
  destruct (negb (is_iso2022_jp cs)); [|discriminate].
  destruct (iso2022EscSeqLength escSeq) as [n|f]; cbn [bind];
    [discriminate|intros E; exact (F2 f eq_refl ltac:(congruence))].
Qed.

(** The bound [len] is enough: the scan never stops for want of fuel. *)
Lemma scan_no_out_of_fuel (fuel : nat) (st : scan_state) :
  len - fragmentStart st <= fuel ->
  scan charsets str copiedStr len fuel st <> Fault OutOfFuel.
Proof.
  revert st. induction fuel as [|fuel IH]; intros st Hf; simpl;
    destruct (Nat.ltb_spec (fragmentStart st) len); simpl;
    try discriminate; try lia.
  destruct (scan_body charsets str copiedStr len st) as [[st'|st']|f] eqn:B;
    cbn [bind]; try discriminate.
  - apply IH. pose proof (scan_body_progress _ _ _ _ st st' H B). lia.
  - intros E. injection E as ->.
    exact (switch_table_no_out_of_fuel _ B).
Qed.

End DecoderFacts.

Lemma decode_no_out_of_fuel {IC : Iconv} (charsets : list string) (str : string) :
  decode charsets str <> Fault OutOfFuel.
Proof.
  unfold decode. destruct charsets as [|first rest]; [discriminate|].
  destruct (definedTermToIconvCharset first) as [cs|]; [|discriminate].
  destruct (iconv_open cs) as [cd0|]; [|discriminate].
  destruct (utf8len_of (String.length str) <? 0)%Z; [discriminate|].
  assert (F : forall u st, finish u st <> Fault OutOfFuel).
  { intros u st. unfold finish.
    generalize (written st ++ zeros (u + 1 - String.length (written st)))%string.
    intros b E.
    assert (G : forall b, string_of_cstr b <> Fault OutOfFuel).
    { clear. induction b as [|c b IH]; simpl; [discriminate|].
      destruct (Ascii.eqb c NUL); [discriminate|].
      destruct (string_of_cstr b) as [s|f]; simpl; [discriminate|].
      intros E. apply IH. congruence. }
    destruct (string_of_cstr b) as [s|f] eqn:Eb; simpl in E; [discriminate|].
    apply (G b). congruence. }
  destruct (List.length (first :: rest) =? 1); [apply F|].
  match goal with |- bind ?m _ <> _ => destruct m as [st|f] eqn:E end;
    cbn [bind]; [apply F|].
  intros E'. injection E' as ->.
  revert E. apply scan_no_out_of_fuel. simpl. lia.
Qed.

(** C2 (a decode call against an empty working set returns the empty
    string without reading the set out of bounds).  The code does not: the
    parser leaves the set empty for a declaration such as "FOO", and the
    decoder reads [m_charsets[0]] of it first thing, whatever the input. *)
Theorem decode_of_empty_set_reads_out_of_bounds :
  ParseCharsetDeclaration "FOO" = Ok [] /\
  (forall (IC : Iconv) (str : string),
      decode [] str = Fault OutOfBounds /\
      convertCharStringToUTF8 [] str = Fault OutOfBounds).
Proof. split; [reflexivity|]. intros IC str. split; reflexivity. Qed.

(** C5: with a working set of one member whose converter opens, the whole
    input (its copy, which is the input itself unless it holds a NUL byte) is
    converted by one call of that member's converter, whatever bytes it
    holds, the escape marker included; the result is what the converter wrote,
    up to its first NUL byte. *)
Theorem single_charset_converts_whole_input
        (IC : Iconv) (term initialCharset : string) (cd0 : iconv_t)
        (str : string) :
  definedTermToIconvCharset term = Some initialCharset ->
  iconv_open initialCharset = Some cd0 ->
  (Z.of_nat (String.length str) * 4 < 2147483648)%Z ->
  let len := String.length str in
  let copiedStr := strncpy str len in
  decode [term] str =
    Ok (mk_decoded (c_str (snd (iconv cd0 copiedStr (len * 4))))
                   [(cd0, copiedStr)]) /\
  convertCharStringToUTF8 [term] str =
    Ok (c_str (snd (iconv cd0 copiedStr (len * 4)))) /\
  String.length copiedStr = len /\
  (c_str str = str -> copiedStr = str).
Proof.
  intros Hterm Hopen Hlen len copiedStr.
  assert (D : decode [term] str =
              Ok (mk_decoded (c_str (snd (iconv cd0 copiedStr (len * 4))))
                             [(cd0, copiedStr)])).
  { unfold decode. rewrite Hterm, Hopen.
    rewrite utf8len_small by exact Hlen.
    destruct (Z.ltb_spec (Z.of_nat (String.length str) * 4) 0); [lia|].
    replace (Z.to_nat (Z.of_nat (String.length str) * 4)) with (len * 4)
      by (unfold len; lia).
    cbn [List.length Nat.eqb].
    rewrite finish_fits.
    - reflexivity.
    - apply convert_fits. unfold fits. simpl. lia. }
  split; [exact D|]. split.
  - unfold convertCharStringToUTF8. rewrite D. reflexivity.
  - split; [apply length_strncpy | apply strncpy_no_nul].
Qed.

Lemma single_charset_converts_whole_input_witness :
  let str := ("AB" ++ String ESC "-A" ++ String (ascii_of_nat 233) "")%string in
  definedTermToIconvCharset "ISO_IR 100" = Some "ISO-8859-1" /\
  iconv_open (Iconv := sample_iconv) "ISO-8859-1" = Some "ISO-8859-1" /\
  (Z.of_nat (String.length str) * 4 < 2147483648)%Z /\
  convertCharStringToUTF8 (IC := sample_iconv) ["ISO_IR 100"] str =
    Ok (c_str (snd (iconv (Iconv := sample_iconv) "ISO-8859-1"
                          (strncpy str 6) 24))).
Proof.
  intros str.
  assert (H1 : definedTermToIconvCharset "ISO_IR 100" = Some "ISO-8859-1")
    by reflexivity.
  assert (H2 : iconv_open (Iconv := sample_iconv) "ISO-8859-1"
               = Some "ISO-8859-1") by reflexivity.
  assert (H3 : (Z.of_nat (String.length str) * 4 < 2147483648)%Z)
    by reflexivity.
  split; [exact H1|]. split; [exact H2|]. split; [exact H3|].
  exact (proj1 (proj2 (single_charset_converts_whole_input
                         sample_iconv "ISO_IR 100" "ISO-8859-1" "ISO-8859-1"
                         str H1 H2 H3))).
Defined.

(** The first pass of the scan converts the bytes from offset 0 up to the
    first marker found from offset 1 on. *)
Lemma decode_first_pass {IC : Iconv} (charsets : list string)
      (first initialCharset : string) (cd0 : iconv_t) (str : string) :
  let len := String.length str in
  let copiedStr := strncpy str len in
  let st0 := mk_scan_state 0 cd0 EmptyString (len * 4) [] in
  hd_error charsets = Some first ->
  List.length charsets <> 1 ->
  definedTermToIconvCharset first = Some initialCharset ->
  iconv_open initialCharset = Some cd0 ->
  (Z.of_nat len * 4 < 2147483648)%Z ->
  decode charsets str =
  (st <- scan charsets str copiedStr len len st0 ;; finish (len * 4) st).
Proof.
  intros len copiedStr st0 Hhd Hlen Hterm Hopen Hsize.
  unfold decode. destruct charsets as [|t ts]; [discriminate|].
  injection Hhd as ->. rewrite Hterm, Hopen.
  rewrite utf8len_small by exact Hsize.
  destruct (Z.ltb_spec (Z.of_nat (String.length str) * 4) 0); [lia|].
  replace (Z.to_nat (Z.of_nat (String.length str) * 4)) with (len * 4)
    by (unfold len; lia).
  destruct (Nat.eqb_spec (List.length (first :: ts)) 1); [contradiction|].
  reflexivity.
Qed.

(** C10: with a working set of two members or more, a marker in the first
    byte of the input is not taken as a table switch.  The scan looks for a
    marker from offset 1 on, so the first fragment runs from offset 0 to the
    next marker (or to the end of the input), and it is the first thing the
    decoder converts, under the handle opened for the first member of the
    working set. *)
Theorem marker_at_offset_zero_is_data
        (IC : Iconv) (charsets : list string) (first initialCharset : string)
        (cd0 : iconv_t) (rest : string) :
  let str := String ESC rest in
  let len := String.length str in
  let copiedStr := strncpy str len in
  let fragmentEnd := findEsc str len 1 in
  let st0 := mk_scan_state 0 cd0 EmptyString (len * 4) [] in
  let fragment := substring 0 fragmentEnd copiedStr in
  hd_error charsets = Some first ->
  2 <= List.length charsets ->
  definedTermToIconvCharset first = Some initialCharset ->
  iconv_open initialCharset = Some cd0 ->
  (Z.of_nat len * 4 < 2147483648)%Z ->
  (1 <= fragmentEnd /\ fragmentEnd <= len) /\
  (forall i, 1 <= i -> i < fragmentEnd ->
             char_eq (char_at str i) 27 = false) /\
  (fragmentEnd < len -> char_eq (char_at str fragmentEnd) 27 = true) /\
  get 0 fragment = Some ESC /\
  next_fragment str copiedStr len st0 = convert st0 fragment fragmentEnd /\
  decode charsets str =
    (st <- (r <- switch_table charsets copiedStr len
                   (convert st0 fragment fragmentEnd) ;;
            match r with
            | Break st' => Ok st'
            | Continue st' =>
                scan charsets str copiedStr len (len - fragmentStart st') st'
            end) ;;
     finish (len * 4) st) /\
  (forall d, decode charsets str = Ok d ->
             exists more, conversions d = (cd0, fragment) :: more) /\
  (fragmentEnd = len ->
   decode charsets str =
   Ok (mk_decoded (c_str (snd (iconv cd0 copiedStr (len * 4))))
                  [(cd0, copiedStr)])).
Proof.
  intros str len copiedStr fragmentEnd st0 fragment Hhd Hlen Hterm Hopen Hsize.
  assert (L : 1 <= len) by (unfold len, str; simpl; lia).
  destruct (findEsc_bounds str len 1 L) as [B1 B2].
  destruct (findEsc_spec str len 1 L) as [S1 S2].
  assert (D : decode charsets str =
              (st <- scan charsets str copiedStr len len st0 ;;
               finish (len * 4) st)).
  { apply (decode_first_pass charsets first initialCharset); auto. lia. }
  assert (U : scan charsets str copiedStr len len st0 =
              (r <- switch_table charsets copiedStr len
                      (convert st0 fragment fragmentEnd) ;;
               match r with
               | Break st' => Ok st'
               | Continue st' =>
                   scan charsets str copiedStr len (len - fragmentStart st') st'
               end)).
  assert (N : next_fragment str copiedStr len st0
              = convert st0 fragment fragmentEnd).
  { unfold next_fragment, fragment, fragmentEnd, st0.
    cbn [fragmentStart Nat.add]. rewrite Nat.sub_0_r. reflexivity. }
  { rewrite scan_unfold by (unfold st0; cbn [fragmentStart]; lia).
    unfold scan_body. rewrite N. reflexivity. }
  assert (N : next_fragment str copiedStr len st0
              = convert st0 fragment fragmentEnd).
  { unfold next_fragment, fragment, fragmentEnd, st0.
    cbn [fragmentStart Nat.add]. rewrite Nat.sub_0_r. reflexivity. }
  split; [split; assumption|]. split; [exact S1|]. split; [exact S2|].
  split.
  { unfold fragment. change fragmentEnd with (findEsc str len 1).
    destruct (findEsc str len 1) as [|k]; [lia|].
    unfold copiedStr, len, str. reflexivity. }
  split; [exact N|]. split; [rewrite D, U; reflexivity|]. split.
  - intros d Hd. rewrite D, U in Hd. clear D U.
    assert (F : forall st, finish (len * 4) st = Ok d -> conversions d = calls st).
    { intros st. unfold finish.
      destruct (string_of_cstr _) as [s|]; cbn [bind]; [|discriminate].
      intros H. injection H as <-. reflexivity. }
    destruct (switch_table charsets copiedStr len
                (convert st0 fragment fragmentEnd)) as [r|] eqn:W;
      cbn [bind] in Hd; [|discriminate].
    pose proof (switch_table_calls _ _ _ _ _ W) as C.
    destruct r as [st'|st']; cbv beta iota in Hd, C.
    + cbn [bind] in Hd. apply F in Hd. rewrite Hd, C.
      exists []. reflexivity.
    + destruct (scan charsets str copiedStr len (len - fragmentStart st') st')
        as [st|] eqn:E; cbn [bind] in Hd; [|discriminate].
      apply scan_calls in E as [more E]. apply F in Hd.
      rewrite Hd, E, C. exists more. reflexivity.
  - intros Hend. rewrite D, U.
    unfold switch_table. cbn [fragmentStart convert].
    rewrite Hend, Nat.ltb_irrefl. cbn [bind].
    rewrite scan_done by (cbn [fragmentStart convert]; lia). cbn [bind].
    rewrite finish_fits
      by (apply convert_fits; unfold fits, st0;
          cbn [written outbytesleft String.length]; lia).
    unfold fragment. rewrite Hend.
    replace (substring 0 len copiedStr) with copiedStr.
    + reflexivity.
    + rewrite <- (length_strncpy str len) at 1. fold copiedStr.
      symmetry. apply substring_all.
Qed.

Lemma marker_at_offset_zero_is_data_witness :
  let charsets := ["ISO 2022 IR 6"; "ISO 2022 IR 100"] in
  let str := String ESC "-Z" in
  hd_error charsets = Some "ISO 2022 IR 6" /\
  2 <= List.length charsets /\
  definedTermToIconvCharset "ISO 2022 IR 6" = Some "ASCII" /\
  iconv_open (Iconv := sample_iconv) "ASCII" = Some "ASCII" /\
  (Z.of_nat (String.length str) * 4 < 2147483648)%Z /\
  decode (IC := sample_iconv) charsets str =
    Ok (mk_decoded (c_str (snd (iconv (Iconv := sample_iconv) "ASCII"
                                      (strncpy str 3) 12)))
                   [("ASCII", strncpy str 3)]).
Proof.
  intros charsets str.
  assert (H1 : hd_error charsets = Some "ISO 2022 IR 6") by reflexivity.
  assert (H2 : 2 <= List.length charsets) by (simpl; lia).
  assert (H3 : definedTermToIconvCharset "ISO 2022 IR 6" = Some "ASCII")
    by reflexivity.
  assert (H4 : iconv_open (Iconv := sample_iconv) "ASCII" = Some "ASCII")
    by reflexivity.
  assert (H5 : (Z.of_nat (String.length str) * 4 < 2147483648)%Z)
    by reflexivity.
  split; [exact H1|]. split; [exact H2|]. split; [exact H3|].
  split; [exact H4|]. split; [exact H5|].
  apply (marker_at_offset_zero_is_data sample_iconv charsets
           "ISO 2022 IR 6" "ASCII" "ASCII" "-Z" H1 H2 H3 H4 H5).
  reflexivity.
Defined.

Lemma peek_get (buf : string) (i : nat) (c : ascii) :
  peek buf i = Ok c -> get i buf = Some c.
Proof.
  unfold peek. destruct (get i buf); [congruence|].
  destruct (i =? String.length buf); discriminate.
Qed.

(** A graphic byte read from the copy is the byte of the input there, and
    it is not a marker. *)
Lemma peek_graphic (str : string) (i : nat) (c : ascii) :
  peek (strncpy str (String.length str)) i = Ok c -> graphic c = true ->
  i < String.length str /\ char_eq (char_at str i) 27 = false.
Proof.
  intros P G. apply peek_get in P.
  destruct (graphic_not_marker c G) as [Hm Hn].
  split.
  - apply get_lt in P. rewrite length_strncpy in P. exact P.
  - unfold char_at. rewrite (get_strncpy _ _ _ _ P Hn). exact Hm.
Qed.

(** A text whose characters are found in [s] from position [i] on is the
    part of [s] that begins there. *)
Lemma substring_of_gets (text s : string) (i : nat) :
  (forall k c, get k text = Some c -> get (i + k) s = Some c) ->
  substring i (String.length text) s = text.
Proof.
  intros H. rewrite substring_drop.
  assert (G : forall k c, get k text = Some c -> get k (drop i s) = Some c).
  { intros k c Hk. rewrite get_drop. apply H. exact Hk. }
  clear H. revert G. generalize (drop i s). clear s i.
  induction text as [|a text IH]; intros t G; cbn [String.length].
  - apply substring_0_0.
  - destruct t as [|b t]; [specialize (G 0 a eq_refl); discriminate|].
    pose proof (G 0 a eq_refl) as G0. cbn in G0. injection G0 as ->.
    cbn [substring]. f_equal. apply IH.
    intros k c Hk. apply (G (S k) c). exact Hk.
Qed.

(** The converter charsets of the table that are ISO-2022-JP or
    ISO-2022-JP-1 are those of the terms ISO 2022 IR 87 and 159. *)
Lemma escape_sequences_iso2022_jp (text nextTerm nextCharset : string) :
  In (text, nextTerm) escape_sequences ->
  definedTermToIconvCharset nextTerm = Some nextCharset ->
  (nextCharset = "ISO-2022-JP" \/ nextCharset = "ISO-2022-JP-1" <->
   nextTerm = "ISO 2022 IR 87" \/ nextTerm = "ISO 2022 IR 159").
Proof.
  intros Hin Hterm. cbn [escape_sequences In] in Hin.
  repeat match type of Hin with
         | _ \/ _ => destruct Hin as [Hin|Hin]
         end;
    try contradiction;
    injection Hin as <- <-; vm_compute in Hterm; injection Hterm as <-;
    (split; intros [H|H]; first [discriminate H | auto]).
Qed.

(** C6: when the decoder switches tables at a marker, the bytes after the
    marker are one of the escape sequences of the catalogue, and the cursor
    moves to marker + 1 + the number of bytes of that sequence (3 for ESC $ ( D,
    ESC $ ) C and ESC $ ) A, 2 for the others), so the next fragment begins
    after the sequence; unless the new converter charset is ISO-2022-JP or
    ISO-2022-JP-1 (the terms ISO 2022 IR 87 and ISO 2022 IR 159): then the
    cursor stays on the marker, and the next fragment, which is converted
    under the new handle, begins at the marker and holds the whole
    sequence. *)
Theorem switch_moves_cursor_unless_iso2022_jp
        (IC : Iconv) (charsets : list string) (str : string)
        (st : scan_state) (nextTerm nextCharset : string) (cd' : iconv_t) :
  let len := String.length str in
  let copiedStr := strncpy str len in
  let st1 := next_fragment str copiedStr len st in
  let marker := findEsc str len (fragmentStart st + 1) in
  let escSeq := fun k => peek copiedStr (marker + 1 + k) in
  fragmentStart st < len ->
  marker < len ->
  iso2022EscSelectCharset escSeq = Ok nextTerm ->
  definedTermToIconvCharset nextTerm = Some nextCharset ->
  In nextTerm charsets ->
  iconv_close (cd st1) = true ->
  iconv_open nextCharset = Some cd' ->
  exists text,
    let n := String.length text in
    In (text, nextTerm) escape_sequences /\
    substring (marker + 1) n str = text /\
    iso2022EscSeqLength escSeq = Ok n /\ (n = 2 \/ n = 3) /\
    marker + 1 + n <= len /\
    char_eq (char_at str marker) 27 = true /\
    (nextCharset = "ISO-2022-JP" \/ nextCharset = "ISO-2022-JP-1" <->
     nextTerm = "ISO 2022 IR 87" \/ nextTerm = "ISO 2022 IR 159") /\
    if (nextCharset =? "ISO-2022-JP")%string
       || (nextCharset =? "ISO-2022-JP-1")%string
    then
      let st2 := with_handle st1 cd' marker in
      scan_body charsets str copiedStr len st = Ok (Continue st2) /\
      fragmentStart st2 = marker /\
      marker + 1 + n <= findEsc str len (marker + 1) /\
      calls (next_fragment str copiedStr len st2) =
        (calls st1 ++
         [(cd', substring marker (findEsc str len (marker + 1) - marker)
                  copiedStr)])%list
    else
      let st2 := with_handle st1 cd' (marker + 1 + n) in
      scan_body charsets str copiedStr len st = Ok (Continue st2) /\
      fragmentStart st2 = marker + 1 + n /\
      calls (next_fragment str copiedStr len st2) =
        (calls st1 ++
         [(cd', substring (marker + 1 + n)
                  (findEsc str len (marker + 1 + n + 1) - (marker + 1 + n))
                  copiedStr)])%list.
Proof.
  intros len copiedStr st1 marker escSeq Hcur Hmark Hsel Hterm Hin Hclose Hopen.
  assert (Hne : nextTerm <> EmptyString).
  { intros ->. discriminate Hterm. }
  destruct (select_inv escSeq nextTerm Hsel Hne)
    as (text & Htab & Hlen & Hn23 & Hget).
  assert (Hbytes : forall k c,
             get k text = Some c ->
             get (marker + 1 + k) str = Some c /\
             marker + 1 + k < len /\
             char_eq (char_at str (marker + 1 + k)) 27 = false).
  { intros k c Hk. destruct (Hget k c Hk) as [R G].
    destruct (peek_graphic str _ c R G) as [L M].
    split; [|split; [exact L | exact M]].
    apply peek_get in R. apply (get_strncpy _ _ _ _ R).
    apply (graphic_not_marker c G). }
  assert (Hmarker : char_eq (char_at str marker) 27 = true).
  { apply (findEsc_spec str len (fragmentStart st + 1)); [lia | exact Hmark]. }
  assert (Hnf : not_found charsets nextTerm = false)
    by (apply not_found_In; exact Hin).
  assert (B : scan_body charsets str copiedStr len st =
              Ok (Continue
                    (with_handle st1 cd'
                       (if (nextCharset =? "ISO-2022-JP")%string
                           || (nextCharset =? "ISO-2022-JP-1")%string
                        then marker
                        else marker + 1 + String.length text)))).
  { unfold scan_body. fold st1. unfold switch_table.
    change (fragmentStart st1) with marker.
    destruct (Nat.ltb_spec marker len); [|lia].
    fold escSeq. rewrite Hsel. cbn [bind]. rewrite Hterm, Hnf, Hclose, Hopen.
    cbn [negb]. unfold is_iso2022_jp.
    destruct ((nextCharset =? "ISO-2022-JP")%string
              || (nextCharset =? "ISO-2022-JP-1")%string); cbn [negb].
    - reflexivity.
    - rewrite Hlen. cbn [bind].
      replace (marker + (String.length text + 1))
        with (marker + 1 + String.length text) by lia.
      reflexivity. }
  assert (Hle : marker + 1 + String.length text <= len).
  { destruct (get_some text (String.length text - 1)) as [c Hc]; [lia|].
    destruct (Hbytes _ _ Hc) as (_ & L & _). lia. }
  assert (Hfree : forall i, marker + 1 <= i ->
                            i < marker + 1 + String.length text ->
                            char_eq (char_at str i) 27 = false).
  { intros i Hi1 Hi2.
    destruct (get_some text (i - (marker + 1))) as [c Hc]; [lia|].
    destruct (Hbytes _ _ Hc) as (_ & _ & M).
    replace (marker + 1 + (i - (marker + 1))) with i in M by lia. exact M. }
  exists text. cbv zeta.
  split; [exact Htab|].
  split.
  { apply substring_of_gets. intros k c Hk. apply (Hbytes k c Hk). }
  split; [exact Hlen|]. split; [exact Hn23|]. split; [exact Hle|].
  split; [exact Hmarker|].
  split; [exact (escape_sequences_iso2022_jp _ _ _ Htab Hterm)|].
  destruct ((nextCharset =? "ISO-2022-JP")%string
            || (nextCharset =? "ISO-2022-JP-1")%string).
  - split; [exact B|]. split; [reflexivity|]. split; [|reflexivity].
    apply findEsc_skips; [exact Hle | exact Hfree].
  - split; [exact B|]. split; reflexivity.
Qed.

(** Two switches on three-byte sequences: ESC $ ( D selects ISO-2022-JP-1 and
    leaves the cursor on the marker; ESC $ ) C selects EUC-KR and moves the
    cursor four bytes on. *)
Lemma switch_moves_cursor_unless_iso2022_jp_witness :
  (let charsets := ["ISO 2022 IR 6"; "ISO 2022 IR 159"] in
   let str := ("AB" ++ String ESC "$(DXY")%string in
   let len := String.length str in
   let copiedStr := strncpy str len in
   let st := mk_scan_state 0 "ASCII" EmptyString 28 [] in
   let st1 := next_fragment (IC := sample_iconv) str copiedStr len st in
   let marker := findEsc str len (fragmentStart st + 1) in
   let escSeq := fun k => peek copiedStr (marker + 1 + k) in
   fragmentStart st < len /\
   marker < len /\
   iso2022EscSelectCharset escSeq = Ok "ISO 2022 IR 159" /\
   definedTermToIconvCharset "ISO 2022 IR 159" = Some "ISO-2022-JP-1" /\
   In "ISO 2022 IR 159" charsets /\
   iconv_close (Iconv := sample_iconv) (cd st1) = true /\
   iconv_open (Iconv := sample_iconv) "ISO-2022-JP-1" = Some "ISO-2022-JP-1" /\
   exists text,
     In (text, "ISO 2022 IR 159") escape_sequences /\
     substring (marker + 1) (String.length text) str = text /\
     iso2022EscSeqLength escSeq = Ok (String.length text) /\
     scan_body (IC := sample_iconv) charsets str copiedStr len st =
       Ok (Continue (with_handle st1 "ISO-2022-JP-1" marker))) /\
  (let charsets := ["ISO 2022 IR 6"; "ISO 2022 IR 149"] in
   let str := ("AB" ++ String ESC "$)CXY")%string in
   let len := String.length str in
   let copiedStr := strncpy str len in
   let st := mk_scan_state 0 "ASCII" EmptyString 28 [] in
   let st1 := next_fragment (IC := sample_iconv) str copiedStr len st in
   let marker := findEsc str len (fragmentStart st + 1) in
   let escSeq := fun k => peek copiedStr (marker + 1 + k) in
   fragmentStart st < len /\
   marker < len /\
   iso2022EscSelectCharset escSeq = Ok "ISO 2022 IR 149" /\
   definedTermToIconvCharset "ISO 2022 IR 149" = Some "EUC-KR" /\
   In "ISO 2022 IR 149" charsets /\
   iconv_close (Iconv := sample_iconv) (cd st1) = true /\
   iconv_open (Iconv := sample_iconv) "EUC-KR" = Some "EUC-KR" /\
   exists text,
     In (text, "ISO 2022 IR 149") escape_sequences /\
     substring (marker + 1) (String.length text) str = text /\
     iso2022EscSeqLength escSeq = Ok (String.length text) /\
     scan_body (IC := sample_iconv) charsets str copiedStr len st =
       Ok (Continue
             (with_handle st1 "EUC-KR" (marker + 1 + String.length text)))).
Proof.
  split.
  - intros charsets str len copiedStr st st1 marker escSeq.
    assert (H1 : fragmentStart st < len) by (cbv; lia).
    assert (H2 : marker < len) by (cbv; lia).
    assert (H3 : iso2022EscSelectCharset escSeq = Ok "ISO 2022 IR 159")
      by reflexivity.
    assert (H4 : definedTermToIconvCharset "ISO 2022 IR 159"
                 = Some "ISO-2022-JP-1") by reflexivity.
    assert (H5 : In "ISO 2022 IR 159" charsets) by (right; left; reflexivity).
    assert (H6 : iconv_close (Iconv := sample_iconv) (cd st1) = true)
      by reflexivity.
    assert (H7 : iconv_open (Iconv := sample_iconv) "ISO-2022-JP-1"
                 = Some "ISO-2022-JP-1") by reflexivity.
    split; [exact H1|]. split; [exact H2|]. split; [exact H3|].
    split; [exact H4|]. split; [exact H5|]. split; [exact H6|].
    split; [exact H7|].
    destruct (switch_moves_cursor_unless_iso2022_jp
                sample_iconv charsets str st "ISO 2022 IR 159" "ISO-2022-JP-1"
                "ISO-2022-JP-1" H1 H2 H3 H4 H5 H6 H7)
      as (text & Htab & Hsub & Hn & _ & _ & _ & _ & Hbody).
    exists text. split; [exact Htab|]. split; [exact Hsub|].
    split; [exact Hn|]. exact (proj1 Hbody).
  - intros charsets str len copiedStr st st1 marker escSeq.
    assert (H1 : fragmentStart st < len) by (cbv; lia).
    assert (H2 : marker < len) by (cbv; lia).
    assert (H3 : iso2022EscSelectCharset escSeq = Ok "ISO 2022 IR 149")
      by reflexivity.
    assert (H4 : definedTermToIconvCharset "ISO 2022 IR 149" = Some "EUC-KR")
      by reflexivity.
    assert (H5 : In "ISO 2022 IR 149" charsets) by (right; left; reflexivity).
    assert (H6 : iconv_close (Iconv := sample_iconv) (cd st1) = true)
      by reflexivity.
    assert (H7 : iconv_open (Iconv := sample_iconv) "EUC-KR" = Some "EUC-KR")
      by reflexivity.
    split; [exact H1|]. split; [exact H2|]. split; [exact H3|].
    split; [exact H4|]. split; [exact H5|]. split; [exact H6|].
    split; [exact H7|].
    destruct (switch_moves_cursor_unless_iso2022_jp
                sample_iconv charsets str st "ISO 2022 IR 149" "EUC-KR"
                "EUC-KR" H1 H2 H3 H4 H5 H6 H7)
      as (text & Htab & Hsub & Hn & _ & _ & _ & _ & Hbody).
    exists text. split; [exact Htab|]. split; [exact Hsub|].
    split; [exact Hn|]. exact (proj1 Hbody).
Defined.

(** The two ways a switch leaves the cursor, on concrete inputs: after
    "AB" ESC "-A" the Latin-1 byte alone goes to the new converter; after
    "AB" ESC "$B" the marker and the sequence go to it as well. *)
Example switch_to_latin1_skips_sequence :
  decode (IC := sample_iconv) ["ISO 2022 IR 6"; "ISO 2022 IR 100"]
    ("AB" ++ String ESC "-A" ++ String (ascii_of_nat 233) "") =
  Ok (mk_decoded
        ("AB" ++ String (ascii_of_nat 195) (String (ascii_of_nat 169) ""))
        [("ASCII", "AB"); ("ISO-8859-1", String (ascii_of_nat 233) "")]).
Proof. reflexivity. Qed.

Example switch_to_iso2022_jp_keeps_sequence :
  decode (IC := sample_iconv) ["ISO 2022 IR 6"; "ISO 2022 IR 87"]
    ("AB" ++ String ESC "$BXY") =
  Ok (mk_decoded ("AB" ++ String ESC "$BXY")
        [("ASCII", "AB"); ("ISO-2022-JP", String ESC "$BXY")]).
Proof. reflexivity. Qed.

(** A switch to a declared table followed by a switch to an undeclared one:
    the output stops after the Latin-1 character. *)
Example abort_after_a_switch :
  decode (IC := sample_iconv) ["ISO 2022 IR 6"; "ISO 2022 IR 100"]
    ("AB" ++ String ESC "-A" ++ String (ascii_of_nat 233) (String ESC "-Zxy")) =
  Ok (mk_decoded
        ("AB" ++ String (ascii_of_nat 195) (String (ascii_of_nat 169) ""))
        [("ASCII", "AB"); ("ISO-8859-1", String (ascii_of_nat 233) "")]).
Proof. reflexivity. Qed.

(** C4 as stated fails for a marker the scan does not look at.  With the
    working set of the example and the input ESC "-Z", whose marker is
    followed by bytes that select no term, the decoder does not stop at the
    marker with the (empty) output accumulated before it: it converts the
    three bytes as data. *)
Lemma marker_under_cursor_does_not_abort :
  let charsets := ["ISO 2022 IR 6"; "ISO 2022 IR 100"] in
  let str := String ESC "-Z" in
  get 0 str = Some ESC /\
  iso2022EscSelectCharset
    (fun k => peek (strncpy str (String.length str)) (0 + 1 + k)) = Ok "" /\
  definedTermToIconvCharset "" = None /\
  decode (IC := sample_iconv) charsets str =
    Ok (mk_decoded (String ESC "-Z") [("ASCII", String ESC "-Z")]) /\
  convertCharStringToUTF8 (IC := sample_iconv) charsets str <> Ok "".
Proof.
  intros charsets str.
  split; [reflexivity|]. split; [reflexivity|]. split; [reflexivity|].
  split; [reflexivity|]. cbv. discriminate.
Qed.

(** C4, amended: with a working set of two members or more, when the scan
    finds a marker (it looks for one from the byte after the cursor on) and
    the bytes after the marker, read inside the input, select a term that
    is empty, has no converter charset or is not in the working set, the
    decoder stops there: it returns what was written for the bytes before
    the marker, up to the first NUL byte, and converts nothing more. *)
Theorem decode_aborts_at_undeclared_switch
        (IC : Iconv) (charsets : list string) (first initialCharset : string)
        (cd0 : iconv_t) (str : string) (st : scan_state) (nextTerm : string) :
  let len := String.length str in
  let copiedStr := strncpy str len in
  let st0 := mk_scan_state 0 cd0 EmptyString (len * 4) [] in
  let marker := findEsc str len (fragmentStart st + 1) in
  let fragment :=
    substring (fragmentStart st) (marker - fragmentStart st) copiedStr in
  hd_error charsets = Some first ->
  2 <= List.length charsets ->
  definedTermToIconvCharset first = Some initialCharset ->
  iconv_open initialCharset = Some cd0 ->
  (Z.of_nat len * 4 < 2147483648)%Z ->
  reaches charsets str copiedStr len st0 st ->
  fragmentStart st < len ->
  marker < len ->
  iso2022EscSelectCharset (fun k => peek copiedStr (marker + 1 + k))
    = Ok nextTerm ->
  definedTermToIconvCharset nextTerm = None \/ ~ In nextTerm charsets ->
  char_eq (char_at str marker) 27 = true /\
  decode charsets str =
    Ok (mk_decoded
          (c_str (written st ++
                  snd (iconv (cd st) fragment (outbytesleft st))))
          (calls st ++ [(cd st, fragment)])).
Proof.
  intros len copiedStr st0 marker fragment
         Hhd Hlen Hterm Hopen Hsize Hreach Hcur Hmark Hsel Hbad.
  split.
  { apply (findEsc_spec str len (fragmentStart st + 1)); [lia | exact Hmark]. }
  rewrite (decode_first_pass charsets first initialCharset cd0 str)
    by (auto; lia).
  fold len copiedStr st0.
  rewrite (scan_reaches charsets str copiedStr len st0 st len Hreach)
    by (unfold st0; cbn [fragmentStart]; lia).
  rewrite scan_unfold by lia.
  assert (B : scan_body charsets str copiedStr len st =
              Ok (Break (next_fragment str copiedStr len st))).
  { unfold scan_body, switch_table.
    change (fragmentStart (next_fragment str copiedStr len st)) with marker.
    destruct (Nat.ltb_spec marker len); [|lia].
    rewrite Hsel. cbn [bind].
    destruct (definedTermToIconvCharset nextTerm) as [cs|]; [|reflexivity].
    destruct Hbad as [Hbad|Hbad]; [discriminate|].
    destruct (not_found charsets nextTerm) eqn:NF; [reflexivity|].
    apply not_found_In in NF. contradiction. }
  rewrite B. cbn [bind].
  rewrite finish_fits.
  - reflexivity.
  - apply convert_fits.
    apply (reaches_fits charsets str copiedStr len (len * 4) st0 st Hreach).
    unfold fits, st0. cbn [written outbytesleft String.length]. lia.
Qed.

Lemma decode_aborts_at_undeclared_switch_witness :
  let charsets := ["ISO 2022 IR 6"; "ISO 2022 IR 100"] in
  let str := ("AB" ++ String ESC "-Z")%string in
  let len := String.length str in
  let copiedStr := strncpy str len in
  let st0 := mk_scan_state (IC := sample_iconv) 0 "ASCII" EmptyString
               (len * 4) [] in
  let marker := findEsc str len (fragmentStart st0 + 1) in
  hd_error charsets = Some "ISO 2022 IR 6" /\
  2 <= List.length charsets /\
  definedTermToIconvCharset "ISO 2022 IR 6" = Some "ASCII" /\
  iconv_open (Iconv := sample_iconv) "ASCII" = Some "ASCII" /\
  (Z.of_nat len * 4 < 2147483648)%Z /\
  reaches (IC := sample_iconv) charsets str copiedStr len st0 st0 /\
  fragmentStart st0 < len /\
  marker < len /\
  iso2022EscSelectCharset (fun k => peek copiedStr (marker + 1 + k)) = Ok "" /\
  (definedTermToIconvCharset "" = None \/ ~ In "" charsets) /\
  convertCharStringToUTF8 (IC := sample_iconv) charsets str = Ok "AB".
Proof.
  intros charsets str len copiedStr st0 marker.
  assert (H1 : hd_error charsets = Some "ISO 2022 IR 6") by reflexivity.
  assert (H2 : 2 <= List.length charsets) by (simpl; lia).
  assert (H3 : definedTermToIconvCharset "ISO 2022 IR 6" = Some "ASCII")
    by reflexivity.
  assert (H4 : iconv_open (Iconv := sample_iconv) "ASCII" = Some "ASCII")
    by reflexivity.
  assert (H5 : (Z.of_nat len * 4 < 2147483648)%Z) by reflexivity.
  assert (H6 : reaches (IC := sample_iconv) charsets str copiedStr len st0 st0)
    by constructor.
  assert (H7 : fragmentStart st0 < len) by (cbv; lia).
  assert (H8 : marker < len) by (cbv; lia).
  assert (H9 : iso2022EscSelectCharset
                 (fun k => peek copiedStr (marker + 1 + k)) = Ok "")
    by reflexivity.
  assert (H10 : definedTermToIconvCharset "" = None \/ ~ In "" charsets)
    by (left; reflexivity).
  split; [exact H1|]. split; [exact H2|]. split; [exact H3|].
  split; [exact H4|]. split; [exact H5|]. split; [exact H6|].
  split; [exact H7|]. split; [exact H8|]. split; [exact H9|].
  split; [exact H10|].
  unfold convertCharStringToUTF8.
  rewrite (proj2 (decode_aborts_at_undeclared_switch
                    sample_iconv charsets "ISO 2022 IR 6" "ASCII" "ASCII"
                    str st0 "" H1 H2 H3 H4 H5 H6 H7 H8 H9 H10)).
  reflexivity.
Defined.

(** * Further properties of the code *)

(** ** findEsc (lines 19-25) *)

(** [findEsc] returns the position of the first marker at or after [pos]:
    the result lies between [pos] and [len], no byte from [pos] up to it is
    a marker, and it is [len] exactly when there is no marker. *)
Theorem findEsc_finds_first_marker (str : string) (len pos : nat) :
  pos <= len ->
  let r := findEsc str len pos in
  pos <= r /\ r <= len /\
  (forall i, pos <= i -> i < r -> char_eq (char_at str i) 27 = false) /\
  (r < len -> char_eq (char_at str r) 27 = true) /\
  (r = len <->
   forall i, pos <= i -> i < len -> char_eq (char_at str i) 27 = false).
Proof.
  intros Hp r.
  destruct (findEsc_bounds str len pos Hp) as [B1 B2].
  destruct (findEsc_spec str len pos Hp) as [S1 S2].
  fold r in B1, B2, S1, S2.
  split; [exact B1|]. split; [exact B2|]. split; [exact S1|].
  split; [exact S2|]. split.
  - intros E i Hi1 Hi2. apply S1; [exact Hi1 | lia].
  - intros Hfree. destruct (Nat.eq_dec r len) as [|Hne]; [assumption|].
    assert (Hlt : r < len) by lia.
    rewrite (Hfree r B1 Hlt) in S2. specialize (S2 Hlt). discriminate.
Qed.

Lemma findEsc_finds_first_marker_witness :
  2 <= 8 /\
  findEsc ("ABCD" ++ String ESC "-A" ++ "x") 8 2 <= 8 /\
  (findEsc ("ABCD" ++ String ESC "-A" ++ "x") 8 2 < 8 ->
   char_eq (char_at ("ABCD" ++ String ESC "-A" ++ "x")
              (findEsc ("ABCD" ++ String ESC "-A" ++ "x") 8 2)) 27 = true).
Proof.
  assert (H : 2 <= 8) by lia.
  split; [exact H|].
  destruct (findEsc_finds_first_marker
              ("ABCD" ++ String ESC "-A" ++ "x") 8 2 H)
    as (_ & H2 & _ & H4 & _).
  split; [exact H2 | exact H4].
Defined.

(** ** trimWhitespace (lines 27-45) *)

Lemma take_drop (n : nat) (s : string) :
  (substring 0 n s ++ drop n s)%string = s.
Proof.
  revert s. induction n as [|n IH]; intros s.
  - rewrite substring_0_0. reflexivity.
  - destruct s as [|c s]; [reflexivity|]. simpl. rewrite IH. reflexivity.
Qed.

Lemma drop_drop (n m : nat) (s : string) : drop m (drop n s) = drop (n + m) s.
Proof.
  revert s. induction n as [|n IH]; intros s; [reflexivity|].
  destruct s as [|c s]; simpl; [destruct m; reflexivity | apply IH].
Qed.

Lemma get_substring0 (n i : nat) (s : string) (c : ascii) :
  get i (substring 0 n s) = Some c -> i < n /\ get i s = Some c.
Proof.
  revert i s. induction n as [|n IH]; intros i s H.
  - rewrite substring_0_0 in H. destruct i; discriminate.
  - destruct s as [|a s]; [destruct i; discriminate|].
    destruct i as [|i]; simpl in H.
    + split; [lia | exact H].
    + apply IH in H as [H1 H2]. split; [lia | exact H2].
Qed.

Lemma get_substring0_lt (n i : nat) (s : string) :
  i < n -> get i (substring 0 n s) = get i s.
Proof.
  revert i s. induction n as [|n IH]; intros i s H; [lia|].
  destruct s as [|a s]; [reflexivity|].
  destruct i as [|i]; simpl; [reflexivity | apply IH; lia].
Qed.

Lemma length_substring0 (n : nat) (s : string) :
  n <= String.length s -> String.length (substring 0 n s) = n.
Proof.
  revert s. induction n as [|n IH]; intros s H.
  - rewrite substring_0_0. reflexivity.
  - destruct s as [|a s]; simpl in *; [lia|]. rewrite IH; lia.
Qed.

(** The two loops leave [start] on the first and [end] on the last
    character that is not whitespace. *)
Lemma trimWhitespace_indices (term : string) :
  blank term = false ->
  exists n e c0 c1,
    trimWhitespace term = Ok (substring n (e + 1 - n) term) /\
    n <= e /\ e < String.length term /\
    get n term = Some c0 /\ isspace c0 = false /\
    get e term = Some c1 /\ isspace c1 = false /\
    (forall i c, i < n -> get i term = Some c -> isspace c = true) /\
    (forall i c, e < i -> get i term = Some c -> isspace c = true).
Proof.
  intros B. unfold trimWhitespace.
  destruct (trim_advance_spec term 0) as (n & E & Hn & Hd & Hw & Hb & Hnb).
  rewrite E. simpl.
  destruct (Hnb B) as (c0 & H0 & Hc0).
  destruct (trim_retreat_spec term n c0 (String.length term))
    as (e & c & R & H1 & H2 & H3 & H4 & H5); auto.
  { apply get_lt in H0. exact H0. }
  rewrite R. simpl. destruct (Nat.ltb_spec (e + 1) n); [lia|].
  exists n, e, c0, c.
  split; [reflexivity|]. split; [exact H1|]. split; [exact H2|].
  split; [exact H0|]. split; [exact Hc0|]. split; [exact H3|].
  split; [exact H4|]. split; [exact Hw|].
  intros i c' Hi Hg. apply (H5 i c'); auto. apply get_lt in Hg. exact Hg.
Qed.

Lemma trimWhitespace_parts (term : string) :
  blank term = false ->
  exists before result after c0 c1,
    trimWhitespace term = Ok result /\
    term = (before ++ result ++ after)%string /\
    blank before = true /\ blank after = true /\
    get 0 result = Some c0 /\ isspace c0 = false /\
    get (String.length result - 1) result = Some c1 /\ isspace c1 = false.
Proof.
  intros B.
  destruct (trimWhitespace_indices term B)
    as (n & e & c0 & c1 & E & Hne & He & G0 & S0 & G1 & S1 & Hw1 & Hw2).
  exists (substring 0 n term), (substring n (e + 1 - n) term),
         (drop (e + 1) term), c0, c1.
  assert (L : String.length (substring n (e + 1 - n) term) = e + 1 - n).
  { rewrite substring_drop. apply length_substring0.
    rewrite length_drop. lia. }
  split; [exact E|]. split.
  { rewrite (substring_drop n (e + 1 - n) term).
    rewrite <- (take_drop n term) at 1. f_equal.
    rewrite <- (take_drop (e + 1 - n) (drop n term)) at 1. f_equal.
    rewrite drop_drop. f_equal. lia. }
  split.
  { apply blank_get. intros i c Hi. apply get_substring0 in Hi as [Hi Hg].
    exact (Hw1 i c Hi Hg). }
  split.
  { apply blank_get. intros i c Hi. rewrite get_drop in Hi.
    apply (Hw2 (e + 1 + i) c); [lia | exact Hi]. }
  split.
  { rewrite substring_drop, get_substring0_lt by lia.
    rewrite get_drop, Nat.add_0_r. exact G0. }
  split; [exact S0|]. split; [|exact S1].
  rewrite L. rewrite substring_drop, get_substring0_lt by lia.
  rewrite get_drop. replace (n + (e + 1 - n - 1)) with e by lia. exact G1.
Qed.

(** On a token that holds a character that is not whitespace,
    [trimWhitespace] returns the token without a blank prefix and a blank
    suffix; what it returns is not empty and neither begins nor ends with
    whitespace. *)
Theorem trimWhitespace_strips_blank_ends (term : string) :
  blank term = false ->
  exists before result after c0 c1,
    trimWhitespace term = Ok result /\
    term = (before ++ result ++ after)%string /\
    blank before = true /\ blank after = true /\
    get 0 result = Some c0 /\ isspace c0 = false /\
    get (String.length result - 1) result = Some c1 /\ isspace c1 = false.
Proof. exact (trimWhitespace_parts term). Qed.

Lemma trimWhitespace_strips_blank_ends_witness :
  blank "  ISO_IR 100 " = false /\
  exists before result after,
    trimWhitespace "  ISO_IR 100 " = Ok result /\
    "  ISO_IR 100 " = (before ++ result ++ after)%string /\
    blank before = true /\ blank after = true.
Proof.
  split; [reflexivity|].
  destruct (trimWhitespace_strips_blank_ends "  ISO_IR 100 " eq_refl)
    as (before & result & after & c0 & c1 & E & D & B1 & B2 & _).
  exists before, result, after. auto.
Defined.

(** Where [normalizeTerm] returns without a read outside the token, the
    token holds a character that is not whitespace, the result is not empty,
    and normalizing the result returns it unchanged. *)
Lemma normalizeTerm_normal (term result : string) :
  normalizeTerm term = Ok result ->
  result <> EmptyString /\ blank term = false /\
  normalizeTerm result = Ok result.
Proof.
  unfold normalizeTerm. intros H.
  destruct (blank term) eqn:B.
  { rewrite trimWhitespace_spec, B in H. discriminate. }
  destruct (trimWhitespace_parts term B)
    as (a & r & b & c0 & c1 & E & _ & _ & _ & G0 & S0 & G1 & S1).
  rewrite E in H. injection H as <-.
  assert (Hne : r <> EmptyString) by (intros ->; discriminate).
  split; [exact Hne|]. split; [reflexivity|].
  assert (Br : blank r = false).
  { destruct (blank r) eqn:Br; [|reflexivity].
    rewrite blank_get in Br. rewrite (Br _ _ G0) in S0. discriminate. }
  rewrite trimWhitespace_spec, Br. f_equal. unfold trimmed.
  assert (L : drop_leading r = r).
  { destruct r as [|c r']; [reflexivity|]. simpl in G0. injection G0 as ->.
    simpl. rewrite S0. reflexivity. }
  rewrite L.
  rewrite (drop_trailing_spec r (String.length r - 1) c1 G1 S1).
  - replace (String.length r - 1 + 1) with (String.length r).
    + apply substring_all.
    + destruct r; [congruence | simpl; lia].
  - intros i c Hi Hg. apply get_lt in Hg. lia.
Qed.

(** [normalizeTerm] returns a token in two cases and in no other.  Either
    the token holds a character that is not whitespace: the result is the
    trimmed token, it is not empty, and normalizing it again returns it
    unchanged, whatever lies before it.  Or the token is empty and the byte
    before it, which the second loop reads, is not whitespace: the result is
    the empty token, the one the test [token.size() == 0] on line 205 looks
    for.  A token of whitespace only is never returned. *)
Theorem normalizeTerm_returns_exactly
        (below : list ascii) (term result : string) :
  normalizeTerm_with below term = Ok result <->
  (blank term = false /\ result = trimmed term /\
   result <> EmptyString /\
   forall below', normalizeTerm_with below' result = Ok result) \/
  (term = EmptyString /\ result = EmptyString /\
   exists c more, below = c :: more /\ isspace c = false).
Proof.
  split.
  - intros H. destruct (returns_token below term) eqn:Hr.
    + rewrite (normalizeTerm_with_returns _ _ Hr) in H. injection H as <-.
      destruct (blank term) eqn:B.
      * right. destruct (returns_token_blank _ _ Hr B) as [-> Hc]. auto.
      * left. split; [reflexivity|]. split; [reflexivity|].
        assert (N : normalizeTerm term = Ok (trimmed term)).
        { unfold normalizeTerm. rewrite trimWhitespace_spec, B. reflexivity. }
        destruct (normalizeTerm_normal _ _ N) as (Hne & _ & Hid).
        split; [exact Hne|]. intros below'.
        apply normalizeTerm_with_agrees. exact Hid.
    + destruct (normalizeTerm_with_throws _ _ Hr) as [f E].
      rewrite E in H. discriminate.
  - intros [(B & -> & _)|(-> & -> & c & more & -> & Hc)].
    + rewrite normalizeTerm_with_returns
        by (unfold returns_token; rewrite B; reflexivity).
      rewrite B. reflexivity.
    + unfold normalizeTerm_with. rewrite trimWhitespace_with_spec.
      cbn [blank retreat_below]. rewrite Hc. reflexivity.
Qed.

(** The trimming step on blank tokens, the byte before the token being NUL
    or a space: the empty token comes back empty in the first case only, and
    a token of one space is never returned. *)
Example trimWhitespace_on_blank_tokens :
  trimWhitespace_with [NUL] "" = Ok "" /\
  trimWhitespace_with [" "%char; NUL] "" = Fault InvalidRange /\
  trimWhitespace_with [] "" = Fault OutOfBounds /\
  trimWhitespace_with [NUL] " " = Fault InvalidRange /\
  trimWhitespace_with [" "%char] " " = Fault OutOfBounds /\
  trimWhitespace_with [] " x " = Ok "x".
Proof. repeat split. Qed.

(** ** The catalogue (lines 47-181) *)

(** The terms an escape sequence can select. *)
Lemma select_terms (seq : nat -> outcome ascii) (term : string) :
  iso2022EscSelectCharset seq = Ok term ->
  In term [""; "ISO 2022 IR 6"; "ISO 2022 IR 100"; "ISO 2022 IR 101";
           "ISO 2022 IR 109"; "ISO 2022 IR 110"; "ISO 2022 IR 144";
           "ISO 2022 IR 127"; "ISO 2022 IR 126"; "ISO 2022 IR 138";
           "ISO 2022 IR 148"; "ISO 2022 IR 13"; "ISO 2022 IR 166";
           "ISO 2022 IR 87"; "ISO 2022 IR 159"; "ISO 2022 IR 149";
           "ISO 2022 IR 58"].
Proof.
  unfold iso2022EscSelectCharset, cond, and_then, or_else, seq_eq.
  destruct (seq 0) as [c0|f0]; cbn [bind]; [|discriminate].
  case_char c0 40%Z; case_char c0 45%Z; case_char c0 36%Z; case_char c0 41%Z;
    cbn [bind];
    try (intros H; injection H as <-; simpl; tauto);
    (destruct (seq 1) as [c1|f1]; cbn [bind]; [|discriminate]);
    repeat match goal with
           | |- context [if char_eq c1 ?v then _ else _] =>
               case_char c1 v; cbn [bind]
           end;
    try (intros H; injection H as <-; simpl; tauto);
    try (destruct (seq 2) as [c2|f2]; cbn [bind]; [|discriminate];
         repeat match goal with
                | |- context [if char_eq c2 ?v then _ else _] =>
                    case_char c2 v; cbn [bind]
                end);
    try (intros H; injection H as <-; simpl; tauto).
Qed.

(** What the comment on line 117 asks for: every term an escape sequence
    selects has a converter charset, and it is a switching spelling
    ("ISO 2022 IR ..."), so it can only be found in a working set that
    declares that spelling. *)
Theorem selected_term_has_converter_charset
        (seq : nat -> outcome ascii) (term : string) :
  iso2022EscSelectCharset seq = Ok term ->
  term <> EmptyString ->
  (exists charset, definedTermToIconvCharset term = Some charset) /\
  prefix "ISO 2022 IR " term = true.
Proof.
  intros H Hne. apply select_terms in H. simpl in H.
  repeat (destruct H as [<-|H];
          [first [congruence | split; [eexists; reflexivity | reflexivity]]|]).
  destruct H.
Qed.

Lemma selected_term_has_converter_charset_witness :
  iso2022EscSelectCharset (seq_of_string "$)C") = Ok "ISO 2022 IR 149" /\
  "ISO 2022 IR 149" <> EmptyString /\
  (exists charset, definedTermToIconvCharset "ISO 2022 IR 149" = Some charset).
Proof.
  assert (H1 : iso2022EscSelectCharset (seq_of_string "$)C")
               = Ok "ISO 2022 IR 149") by reflexivity.
  assert (H2 : "ISO 2022 IR 149" <> EmptyString) by discriminate.
  split; [exact H1|]. split; [exact H2|].
  exact (proj1 (selected_term_has_converter_charset
                  (seq_of_string "$)C") "ISO 2022 IR 149" H1 H2)).
Defined.

(** The plain spelling and the switching spelling of a table map to the
    same converter charset: whenever "ISO_IR n" has a converter charset
    and is not the UTF-8 term "ISO_IR 192", "ISO 2022 IR n" has the same
    one. *)
Theorem both_spellings_share_the_converter_charset
        (suffix charset : string) :
  definedTermToIconvCharset ("ISO_IR " ++ suffix) = Some charset ->
  suffix <> "192" ->
  definedTermToIconvCharset ("ISO 2022 IR " ++ suffix) = Some charset.
Proof.
  intros H Hne. unfold definedTermToIconvCharset, term_is in *.
  cbn in H |- *.
  repeat match type of H with
         | context [(suffix =? ?x)%string] =>
             destruct (suffix =? x)%string eqn:?; cbn in H |- *;
             try assumption
         end.
  - exfalso. apply Hne. apply String.eqb_eq. assumption.
  - discriminate.
Qed.

Lemma both_spellings_share_the_converter_charset_witness :
  definedTermToIconvCharset ("ISO_IR " ++ "144") = Some "ISO-8859-5" /\
  "144" <> "192" /\
  definedTermToIconvCharset ("ISO 2022 IR " ++ "144") = Some "ISO-8859-5".
Proof.
  assert (H1 : definedTermToIconvCharset ("ISO_IR " ++ "144")
               = Some "ISO-8859-5") by reflexivity.
  assert (H2 : "144" <> "192") by discriminate.
  split; [exact H1|]. split; [exact H2|].
  exact (both_spellings_share_the_converter_charset "144" "ISO-8859-5" H1 H2).
Defined.

(** ** setSpecificCharacterSet (lines 192-235) *)









Lemma parse_tokens_members (tokens : list string) (t : string) :
  Forall (fun raw => blank raw = false) tokens ->
  forall st, exists st',
    parse_tokens tokens st = Ok st' /\
    (In t (m_charsets st') <->
     In t (m_charsets st) \/
     declarable t = true /\
     exists raw, In raw tokens /\ normalizeTerm raw = Ok t).
Proof.
  induction 1 as [|raw tokens Hraw Htokens IH]; intros st.
  - exists st. split; [reflexivity|]. split; [tauto|].
    intros [H|(_ & r & [] & _)]. exact H.
  - cbn [parse_tokens]. unfold parse_token.
    assert (N : normalizeTerm raw = Ok (trimmed raw)).
    { unfold normalizeTerm. rewrite trimWhitespace_spec, Hraw. reflexivity. }
    rewrite N. cbn [bind].
    destruct (IH (add_token st (trimmed raw))) as (st' & E & M).
    exists st'. split; [exact E|].
    rewrite M, add_token_charsets by (apply trimmed_nonempty; exact Hraw).
    split.
    + intros [H|(Hd & r & Hin & Hn)].
      * destruct (not_found (m_charsets st) (trimmed raw)) eqn:NF;
          destruct (declarable (trimmed raw)) eqn:D; cbn [andb] in H; auto.
        apply in_app_or in H as [H|[<-|[]]]; [left; exact H|].
        right. split; [exact D|]. exists raw. split; [left; reflexivity|].
        exact N.
      * right. split; [exact Hd|]. exists r. split; [right; exact Hin|].
        exact Hn.
    + intros [H|(Hd & r & [<-|Hin] & Hn)].
      * left. destruct (not_found (m_charsets st) (trimmed raw) &&
                        declarable (trimmed raw)); [|exact H].
        apply in_or_app. left. exact H.
      * rewrite N in Hn. injection Hn as <-. left. rewrite Hd, andb_true_r.
        destruct (not_found (m_charsets st) (trimmed raw)) eqn:NF.
        -- apply in_or_app. right. left. reflexivity.
        -- apply not_found_In. exact NF.
      * right. split; [exact Hd|]. exists r. auto.
Qed.

(** For an attribute value that is not empty and whose tokens each hold a
    character that is not whitespace, the working set holds exactly the
    trimmed tokens that are recognized terms other than a spelling of the
    default table. *)
Theorem working_set_members (spcharsets : string) :
  c_str spcharsets <> EmptyString ->
  Forall (fun raw => blank raw = false)
         (getlines (c_str spcharsets) BACKSLASH) ->
  exists ws,
    ParseCharsetDeclaration spcharsets = Ok ws /\
    forall term,
      In term ws <->
      declarable term = true /\
      exists raw, In raw (getlines (c_str spcharsets) BACKSLASH) /\
                  normalizeTerm raw = Ok term.
Proof.
  intros Hne Htokens.
  unfold ParseCharsetDeclaration, setSpecificCharacterSet.
  destruct (parse_tokens_spec _ Htokens (mk_parse_state 0 [] []))
    as (st & E & C & _).
  rewrite E. cbn [bind]. cbn [count] in C.
  assert (Cz : (count st =? 0)%Z = false).
  { apply Z.eqb_neq. rewrite C.
    destruct (getlines (c_str spcharsets) BACKSLASH) eqn:G.
    - apply getlines_nil in G. contradiction.
    - cbn [List.length]. lia. }
  rewrite Cz. exists (m_charsets st). split.
  - destruct (List.length (m_charsets st) =? 0); reflexivity.
  - intros term.
    destruct (parse_tokens_members _ term Htokens (mk_parse_state 0 [] []))
      as (st2 & E2 & M).
    rewrite E in E2. injection E2 as <-. rewrite M. cbn [m_charsets].
    split; [intros [[]|H]; exact H | intros H; right; exact H].
Qed.

Lemma working_set_members_witness :
  c_str "ISO_IR 100\FOO\ ISO_IR 144" <> EmptyString /\
  Forall (fun raw => blank raw = false)
         (getlines (c_str "ISO_IR 100\FOO\ ISO_IR 144") BACKSLASH) /\
  exists ws,
    ParseCharsetDeclaration "ISO_IR 100\FOO\ ISO_IR 144" = Ok ws /\
    forall term,
      In term ws <->
      declarable term = true /\
      exists raw, In raw (getlines (c_str "ISO_IR 100\FOO\ ISO_IR 144")
                            BACKSLASH) /\
                  normalizeTerm raw = Ok term.
Proof.
  assert (H1 : c_str "ISO_IR 100\FOO\ ISO_IR 144" <> EmptyString)
    by discriminate.
  assert (H2 : Forall (fun raw => blank raw = false)
                 (getlines (c_str "ISO_IR 100\FOO\ ISO_IR 144") BACKSLASH))
    by (repeat constructor).
  split; [exact H1|]. split; [exact H2|].
  exact (working_set_members "ISO_IR 100\FOO\ ISO_IR 144" H1 H2).
Defined.

(** The terms the parser accepts. *)
Lemma declarable_terms (term : string) :
  declarable term = true ->
  In term ["ISO_IR 100"; "ISO 2022 IR 100"; "ISO_IR 101"; "ISO 2022 IR 101";
           "ISO_IR 109"; "ISO 2022 IR 109"; "ISO_IR 110"; "ISO 2022 IR 110";
           "ISO_IR 144"; "ISO 2022 IR 144"; "ISO_IR 127"; "ISO 2022 IR 127";
           "ISO_IR 126"; "ISO 2022 IR 126"; "ISO_IR 138"; "ISO 2022 IR 138";
           "ISO_IR 148"; "ISO 2022 IR 148"; "ISO_IR 13"; "ISO 2022 IR 13";
           "ISO_IR 166"; "ISO 2022 IR 166"; "ISO 2022 IR 87";
           "ISO 2022 IR 159"; "ISO 2022 IR 149"; "ISO 2022 IR 58";
           "ISO_IR 192"; "GB18030"; "GBK"].
Proof.
  unfold declarable, definedTermToIconvCharset, term_is.
  repeat match goal with
         | |- context [(term =? ?a)%string] =>
             destruct (String.eqb_spec term a) as [->|?];
             [first [ intros _; cbn [In];
                      repeat (first [left; reflexivity | right]); fail
                    | simpl; discriminate ]|]
           end.
  cbn [orb]. discriminate.
Qed.

(** Duplicate suppression: for every term the parser accepts, declaring it
    once or twice (the second time with blanks around it) gives the working
    set that holds it once; the repetition is reported on [std::cerr] and
    otherwise ignored. *)
Theorem repeated_term_is_declared_once (term : string) :
  declarable term = true ->
  ParseCharsetDeclaration term = Ok [term] /\
  setSpecificCharacterSet (term ++ String BACKSLASH (" " ++ term ++ " ")) =
    Ok (mk_parse_state 2 [term]
          [("WARN: Found duplicate charset '" ++ term ++ "'; ignoring")%string]).
Proof.
  intros H. apply declarable_terms in H. cbn [In] in H.
  repeat (destruct H as [<-|H]; [split; vm_compute; reflexivity|]).
  destruct H.
Qed.

Lemma repeated_term_is_declared_once_witness :
  declarable "ISO 2022 IR 149" = true /\
  ParseCharsetDeclaration "ISO 2022 IR 149" = Ok ["ISO 2022 IR 149"] /\
  setSpecificCharacterSet "ISO 2022 IR 149\ ISO 2022 IR 149 " =
    Ok (mk_parse_state 2 ["ISO 2022 IR 149"]
          ["WARN: Found duplicate charset 'ISO 2022 IR 149'; ignoring"]).
Proof.
  assert (H : declarable "ISO 2022 IR 149" = true) by reflexivity.
  split; [exact H|].
  exact (repeated_term_is_declared_once "ISO 2022 IR 149" H).
Defined.

(** ** convertCharStringToUTF8 (lines 237-330) *)

Lemma length_c_str (s : string) : String.length (c_str s) <= String.length s.
Proof.
  induction s as [|c s IH]; simpl; [lia|].
  destruct (Ascii.eqb c NUL); simpl; lia.
Qed.

Lemma scan_fits {IC : Iconv} (charsets : list string) (str copiedStr : string)
      (len u fuel : nat) (st st' : scan_state) :
  scan charsets str copiedStr len fuel st = Ok st' ->
  fits u st -> fits u st'.
Proof.
  revert st. induction fuel as [|fuel IH]; intros st; simpl.
  - destruct (negb (fragmentStart st <? len)); [|discriminate].
    intros H. injection H as <-. auto.
  - destruct (negb (fragmentStart st <? len)).
    + intros H. injection H as <-. auto.
    + destruct (scan_body charsets str copiedStr len st) as [r|] eqn:B;
        cbn [bind]; [|discriminate].
      intros H F. pose proof (scan_body_fits _ _ _ _ u st r F B) as F'.
      destruct r as [st1|st1].
      * injection H as <-. exact F'.
      * exact (IH st1 H F').
Qed.

(** The decoder on a working set of one member. *)
Lemma decode_one_member {IC : Iconv} (term initialCharset : string)
      (cd0 : iconv_t) (str : string) :
  definedTermToIconvCharset term = Some initialCharset ->
  iconv_open initialCharset = Some cd0 ->
  (Z.of_nat (String.length str) * 4 < 2147483648)%Z ->
  decode [term] str =
  Ok (mk_decoded
        (c_str (snd (iconv cd0 (strncpy str (String.length str))
                           (String.length str * 4))))
        [(cd0, strncpy str (String.length str))]).
Proof.
  intros Hterm Hopen Hlen. unfold decode. rewrite Hterm, Hopen.
  rewrite utf8len_small by exact Hlen.
  destruct (Z.ltb_spec (Z.of_nat (String.length str) * 4) 0); [lia|].
  replace (Z.to_nat (Z.of_nat (String.length str) * 4))
    with (String.length str * 4) by lia.
  cbn [List.length Nat.eqb].
  rewrite finish_fits; [reflexivity|].
  apply convert_fits. unfold fits. simpl. lia.
Qed.

(** When no byte after the first is a marker, a working set of several
    members is decoded as a working set of its first member alone is: the
    whole input goes to the converter of the first member in one call. *)
Theorem marker_free_input_is_converted_in_one_call
        (IC : Iconv) (charsets : list string) (first initialCharset : string)
        (cd0 : iconv_t) (str : string) :
  hd_error charsets = Some first ->
  definedTermToIconvCharset first = Some initialCharset ->
  iconv_open initialCharset = Some cd0 ->
  (Z.of_nat (String.length str) * 4 < 2147483648)%Z ->
  str <> EmptyString ->
  (forall i, 1 <= i -> i < String.length str ->
             char_eq (char_at str i) 27 = false) ->
  decode charsets str =
    Ok (mk_decoded
          (c_str (snd (iconv cd0 (strncpy str (String.length str))
                             (String.length str * 4))))
          [(cd0, strncpy str (String.length str))]) /\
  decode charsets str = decode [first] str.
Proof.
  intros Hhd Hterm Hopen Hsize Hne Hfree.
  pose proof (decode_one_member first initialCharset cd0 str
                Hterm Hopen Hsize) as One.
  assert (L : 1 <= String.length str) by (destruct str; [congruence|simpl; lia]).
  assert (D : decode charsets str =
              Ok (mk_decoded
                    (c_str (snd (iconv cd0 (strncpy str (String.length str))
                                       (String.length str * 4))))
                    [(cd0, strncpy str (String.length str))])).
  { destruct (Nat.eq_dec (List.length charsets) 1) as [E1|N1].
    - destruct charsets as [|t [|t' ts]]; try discriminate.
      injection Hhd as ->. exact One.
    - rewrite (decode_first_pass charsets first initialCharset cd0 str)
        by auto.
      rewrite scan_unfold by (cbn [fragmentStart]; lia).
      unfold scan_body, next_fragment, switch_table.
      cbn [fragmentStart convert Nat.add].
      assert (E : findEsc str (String.length str) 1 = String.length str).
      { destruct (findEsc_bounds str (String.length str) 1 L) as [B1 B2].
        destruct (findEsc_spec str (String.length str) 1 L) as [_ S2].
        destruct (Nat.eq_dec (findEsc str (String.length str) 1)
                             (String.length str)) as [|Hn]; [assumption|].
        assert (Hlt : findEsc str (String.length str) 1 < String.length str)
          by lia.
        rewrite (Hfree _ B1 Hlt) in S2. specialize (S2 Hlt). discriminate. }
      rewrite E, Nat.ltb_irrefl. cbn [bind].
      rewrite scan_done by (cbn [fragmentStart convert]; lia). cbn [bind].
      rewrite Nat.sub_0_r.
      replace (substring 0 (String.length str)
                 (strncpy str (String.length str)))
        with (strncpy str (String.length str)).
      + rewrite finish_fits; [reflexivity|].
        apply convert_fits. unfold fits.
        cbn [written outbytesleft String.length]. lia.
      + rewrite <- (length_strncpy str (String.length str)) at 2.
        symmetry. apply substring_all. }
  split; [exact D|]. rewrite D, One. reflexivity.
Qed.

Lemma marker_free_input_is_converted_in_one_call_witness :
  let charsets := ["ISO 2022 IR 13"; "ISO 2022 IR 87"] in
  let str := String ESC "$B0!" in
  hd_error charsets = Some "ISO 2022 IR 13" /\
  definedTermToIconvCharset "ISO 2022 IR 13" = Some "SHIFT_JIS" /\
  iconv_open (Iconv := sample_iconv) "SHIFT_JIS" = Some "SHIFT_JIS" /\
  (Z.of_nat (String.length str) * 4 < 2147483648)%Z /\
  str <> EmptyString /\
  (forall i, 1 <= i -> i < String.length str ->
             char_eq (char_at str i) 27 = false) /\
  decode (IC := sample_iconv) charsets str =
  decode (IC := sample_iconv) ["ISO 2022 IR 13"] str.
Proof.
  intros charsets str.
  assert (H1 : hd_error charsets = Some "ISO 2022 IR 13") by reflexivity.
  assert (H2 : definedTermToIconvCharset "ISO 2022 IR 13" = Some "SHIFT_JIS")
    by reflexivity.
  assert (H3 : iconv_open (Iconv := sample_iconv) "SHIFT_JIS"
               = Some "SHIFT_JIS") by reflexivity.
  assert (H4 : (Z.of_nat (String.length str) * 4 < 2147483648)%Z)
    by reflexivity.
  assert (H5 : str <> EmptyString) by discriminate.
  assert (H6 : forall i, 1 <= i -> i < String.length str ->
                         char_eq (char_at str i) 27 = false).
  { intros i Hi1 Hi2. simpl in Hi2.
    destruct i as [|[|[|[|[|i]]]]]; try reflexivity; lia. }
  split; [exact H1|]. split; [exact H2|]. split; [exact H3|].
  split; [exact H4|]. split; [exact H5|]. split; [exact H6|].
  exact (proj2 (marker_free_input_is_converted_in_one_call
                  sample_iconv charsets "ISO 2022 IR 13" "SHIFT_JIS"
                  "SHIFT_JIS" str H1 H2 H3 H4 H5 H6)).
Defined.

(** The empty input is decoded to the empty string by every working set
    that is not empty, whatever the converter does. *)
Theorem empty_input_gives_empty_output
        (IC : Iconv) (charsets : list string) :
  charsets <> [] -> convertCharStringToUTF8 charsets EmptyString = Ok EmptyString.
Proof.
  intros Hne. unfold convertCharStringToUTF8, decode.
  destruct charsets as [|first rest]; [congruence|].
  destruct (definedTermToIconvCharset first) as [cs|]; [|reflexivity].
  destruct (iconv_open cs) as [cd0|]; [|reflexivity].
  cbn [String.length utf8len_of int_of_size].
  change (utf8len_of 0) with 0%Z. cbn [Z.ltb Z.compare Z.to_nat strncpy].
  destruct (List.length (first :: rest) =? 1).
  - rewrite finish_fits
      by (apply convert_fits; unfold fits;
          cbn [written outbytesleft String.length]; lia).
    cbn [bind output convert written cd outbytesleft append].
    pose proof (iconv_fits cd0 EmptyString 0) as F.
    destruct (snd (iconv cd0 EmptyString 0)) as [|c s]; [reflexivity|].
    simpl in F. lia.
  - reflexivity.
Qed.

Lemma empty_input_gives_empty_output_witness :
  ["ISO_IR 100"] <> [] /\
  convertCharStringToUTF8 (IC := sample_iconv) ["ISO_IR 100"] EmptyString
  = Ok EmptyString.
Proof.
  assert (H : ["ISO_IR 100"] <> []) by discriminate.
  split; [exact H|].
  exact (empty_input_gives_empty_output sample_iconv ["ISO_IR 100"] H).
Defined.

Lemma select_fault_first (seq : nat -> outcome ascii) (f : fault) :
  seq 0 = Fault f -> iso2022EscSelectCharset seq = Fault f.
Proof.
  intros H. unfold iso2022EscSelectCharset, cond, and_then, or_else, seq_eq.
  rewrite H. reflexivity.
Qed.

(** *** Past the read of [copiedStr[len]] *)

Lemma refines_refl {A : Type} (m : outcome A) : refines m m.
Proof. intros a H. exact H. Qed.

Lemma refines_bind {A B : Type} (m m' : outcome A) (k k' : A -> outcome B) :
  refines m m' -> (forall a, refines (k a) (k' a)) ->
  refines (bind m k) (bind m' k').
Proof.
  intros Hm Hk b. destruct m as [a|f]; cbn [bind]; [|discriminate].
  rewrite (Hm a eq_refl). cbn [bind]. apply Hk.
Qed.

Lemma seq_eq_refines (seq seq' : nat -> outcome ascii) (k : nat) (v : Z) :
  (forall k, refines (seq k) (seq' k)) ->
  refines (seq_eq seq k v) (seq_eq seq' k v).
Proof.
  intros H. apply refines_bind; [apply H | intros c; apply refines_refl].
Qed.

Lemma seq_ge_refines (seq seq' : nat -> outcome ascii) (k : nat) (v : Z) :
  (forall k, refines (seq k) (seq' k)) ->
  refines (seq_ge seq k v) (seq_ge seq' k v).
Proof.
  intros H. apply refines_bind; [apply H | intros c; apply refines_refl].
Qed.

Lemma seq_le_refines (seq seq' : nat -> outcome ascii) (k : nat) (v : Z) :
  (forall k, refines (seq k) (seq' k)) ->
  refines (seq_le seq k v) (seq_le seq' k v).
Proof.
  intros H. apply refines_bind; [apply H | intros c; apply refines_refl].
Qed.

(** The selection and the length read bytes only: where they return with
    some reads, they return the same with reads that deliver more. *)
Lemma select_refines (seq seq' : nat -> outcome ascii) :
  (forall k, refines (seq k) (seq' k)) ->
  refines (iso2022EscSelectCharset seq) (iso2022EscSelectCharset seq').
Proof.
  intros H. unfold iso2022EscSelectCharset, cond, and_then, or_else.
  repeat first
    [ apply refines_refl
    | apply seq_eq_refines; exact H
    | apply refines_bind; [|intros []] ].
Qed.

Lemma length_refines (seq seq' : nat -> outcome ascii) :
  (forall k, refines (seq k) (seq' k)) ->
  refines (iso2022EscSeqLength seq) (iso2022EscSeqLength seq').
Proof.
  intros H. unfold iso2022EscSeqLength, cond, and_then.
  repeat first
    [ apply refines_refl
    | apply seq_eq_refines; exact H
    | apply seq_ge_refines; exact H
    | apply seq_le_refines; exact H
    | apply refines_bind; [|intros []] ].
Qed.

Lemma get_app_l (s t : string) (i : nat) (c : ascii) :
  get i s = Some c -> get i (s ++ t) = Some c.
Proof.
  revert i. induction s as [|a s IH]; intros [|i] H; try discriminate.
  - exact H.
  - cbn [append get]. apply IH. exact H.
Qed.

Lemma get_app_r (s t : string) (i : nat) :
  get (String.length s + i) (s ++ t) = get i t.
Proof. induction s as [|a s IH]; [reflexivity | exact IH]. Qed.

Lemma peek_refines (beyond : list ascii) (buf : string) (i : nat) :
  refines (peek buf i) (peek_with beyond buf i).
Proof.
  intros c H. apply peek_get in H. unfold peek_with.
  rewrite (get_app_l _ _ _ _ H). reflexivity.
Qed.

(** A byte that begins none of the escape sequences selects no term, and
    no further byte is read. *)
Lemma select_no_first_byte (seq : nat -> outcome ascii) (u : ascii) :
  seq 0 = Ok u ->
  char_eq u 40 = false -> char_eq u 45 = false ->
  char_eq u 36 = false -> char_eq u 41 = false ->
  iso2022EscSelectCharset seq = Ok EmptyString.
Proof.
  intros S H40 H45 H36 H41.
  unfold iso2022EscSelectCharset, cond, and_then, or_else, seq_eq.
  rewrite S. cbn [bind]. rewrite H40, H45, H36, H41. reflexivity.
Qed.

Section PastTheCopy.

Context {IC : Iconv}.
Variables (charsets : list string) (str copiedStr : string) (len : nat).
Variable beyond : list ascii.

(** Where a pass of the loop ends without a read after the bytes written,
    it ends the same past such reads. *)
Lemma switch_table_with_agrees (st : scan_state) (r : pass) :
  switch_table charsets copiedStr len st = Ok r ->
  switch_table_with charsets copiedStr len beyond st = Ok r.
Proof.
  unfold switch_table, switch_table_with.
  destruct (fragmentStart st <? len); [|auto].
  set (escSeq := fun k => peek copiedStr (fragmentStart st + 1 + k)).
  set (escSeq' := fun k => peek_with beyond copiedStr (fragmentStart st + 1 + k)).
  assert (R : forall k, refines (escSeq k) (escSeq' k))
    by (intros k; apply peek_refines).
  destruct (iso2022EscSelectCharset escSeq) as [t|f] eqn:S; cbn [bind];
    [|discriminate].
  rewrite (select_refines _ _ R t S). cbn [bind].
  destruct (definedTermToIconvCharset t) as [cs|]; [|auto].
  destruct (not_found charsets t); [auto|].
  destruct (negb (iconv_close (cd st))); [auto|].
  destruct (iconv_open cs) as [h|]; [|auto].
  destruct (negb (is_iso2022_jp cs)); [|auto].
  destruct (iso2022EscSeqLength escSeq) as [n|f] eqn:L; cbn [bind];
    [|discriminate].
  rewrite (length_refines _ _ R n L). auto.
Qed.

Lemma scan_body_with_agrees (st : scan_state) (r : pass) :
  scan_body charsets str copiedStr len st = Ok r ->
  scan_body_with charsets str copiedStr len beyond st = Ok r.
Proof. apply switch_table_with_agrees. Qed.

(** The scan past such reads goes through the states the scan reaches. *)
Lemma scan_with_reaches (st0 st : scan_state) :
  reaches charsets str copiedStr len st0 st ->
  forall fuel,
    len - fragmentStart st0 <= fuel ->
    exists fuel',
      len - fragmentStart st <= fuel' /\
      scan_with charsets str copiedStr len beyond fuel st0 =
      scan_with charsets str copiedStr len beyond fuel' st.
Proof.
  intros R. induction R as [|st st' R IH Hlt B]; intros fuel Hf.
  - exists fuel. split; [exact Hf | reflexivity].
  - destruct (IH fuel Hf) as (fuel1 & Hf1 & E).
    destruct fuel1 as [|fuel1]; [lia|].
    exists fuel1. split.
    + pose proof (scan_body_progress _ _ _ _ st st' Hlt B). lia.
    + rewrite E. cbn [scan_with].
      destruct (Nat.ltb_spec (fragmentStart st) len); [|lia]. cbn [negb].
      rewrite (scan_body_with_agrees _ _ B). reflexivity.
Qed.

End PastTheCopy.

(** A marker in the last byte of the input, met by the scan, makes the
    decoder look at the byte after it, [copiedStr[len]]: the block has that
    byte ([malloc(len + 1)]) but [strncpy] wrote [len] bytes only, so the
    byte read is uninitialised ([decode] stops at that read).  The call goes
    on with the byte it finds there: when that byte begins none of the
    escape sequences, no term is selected, the scan is left at the marker and
    the call returns what was converted from the bytes before the marker. *)
Theorem marker_in_last_byte_reads_uninitialised
        (IC : Iconv) (charsets : list string) (first initialCharset : string)
        (cd0 : iconv_t) (str : string) (st : scan_state)
        (u : ascii) (more : list ascii) :
  let len := String.length str in
  let copiedStr := strncpy str len in
  let st0 := mk_scan_state 0 cd0 EmptyString (len * 4) [] in
  let st1 := next_fragment str copiedStr len st in
  hd_error charsets = Some first ->
  2 <= List.length charsets ->
  definedTermToIconvCharset first = Some initialCharset ->
  iconv_open initialCharset = Some cd0 ->
  (Z.of_nat len * 4 < 2147483648)%Z ->
  reaches charsets str copiedStr len st0 st ->
  fragmentStart st < len ->
  findEsc str len (fragmentStart st + 1) + 1 = len ->
  char_eq u 40 = false -> char_eq u 45 = false ->
  char_eq u 36 = false -> char_eq u 41 = false ->
  decode charsets str = Fault Uninitialised /\
  peek copiedStr len = Fault Uninitialised /\
  peek_with (u :: more) copiedStr len = Ok u /\
  decode_with charsets (u :: more) str =
    Ok (mk_decoded (c_str (written st1)) (calls st1)) /\
  calls st1 =
    (calls st ++
     [(cd st, substring (fragmentStart st)
                (len - 1 - fragmentStart st) copiedStr)])%list.
Proof.
  intros len copiedStr st0 st1 Hhd Hlen Hterm Hopen Hsize Hreach Hcur Hlast
         H40 H45 H36 H41.
  assert (Hpeek : peek copiedStr len = Fault Uninitialised).
  { unfold peek.
    rewrite get_none by (unfold copiedStr; rewrite length_strncpy; lia).
    unfold copiedStr. rewrite length_strncpy, Nat.eqb_refl. reflexivity. }
  assert (Hpeek' : peek_with (u :: more) copiedStr len = Ok u).
  { unfold peek_with.
    replace len with (String.length copiedStr + 0) at 1
      by (unfold copiedStr; rewrite length_strncpy; lia).
    rewrite get_app_r. reflexivity. }
  split; [|split; [exact Hpeek|split; [exact Hpeek'|split]]].
  - rewrite (decode_first_pass charsets first initialCharset cd0 str)
      by (auto; lia).
    fold len copiedStr st0.
    rewrite (scan_reaches charsets str copiedStr len st0 st len Hreach)
      by (unfold st0; cbn [fragmentStart]; lia).
    rewrite scan_unfold by lia.
    unfold scan_body, switch_table.
    rewrite next_fragment_cursor.
    destruct (Nat.ltb_spec (findEsc str len (fragmentStart st + 1)) len);
      [|lia].
    rewrite (select_fault_first _ Uninitialised); [reflexivity|].
    rewrite Nat.add_0_r, Hlast. exact Hpeek.
  - unfold decode_with. fold len.
    destruct charsets as [|c0 cs] eqn:Hcs; [discriminate|].
    cbn [hd_error] in Hhd. injection Hhd as ->.
    rewrite Hterm, Hopen, (utf8len_small len Hsize).
    destruct (Z.ltb_spec (Z.of_nat len * 4) 0); [lia|].
    destruct (Nat.eqb_spec (List.length (first :: cs)) 1) as [E1|_]; [lia|].
    replace (Z.to_nat (Z.of_nat len * 4)) with (len * 4) by lia.
    fold copiedStr st0. rewrite <- Hcs in *.
    destruct (scan_with_reaches charsets str copiedStr len (u :: more)
                st0 st Hreach len) as (fuel & Hfuel & E).
    { unfold st0. cbn [fragmentStart]. lia. }
    rewrite E. destruct fuel as [|fuel]; [lia|]. cbn [scan_with].
    destruct (Nat.ltb_spec (fragmentStart st) len); [|lia]. cbn [negb].
    unfold scan_body_with, switch_table_with. fold st1.
    change (fragmentStart st1) with (findEsc str len (fragmentStart st + 1)).
    destruct (Nat.ltb_spec (findEsc str len (fragmentStart st + 1)) len);
      [|lia].
    rewrite (select_no_first_byte _ u); auto;
      [|rewrite Nat.add_0_r, Hlast; exact Hpeek'].
    cbn [bind]. change (definedTermToIconvCharset "") with (@None string).
    cbn [bind]. apply finish_fits.
    apply convert_fits.
    apply (reaches_fits charsets str copiedStr len (len * 4) st0 st Hreach).
    unfold fits, st0. cbn [written outbytesleft String.length]. lia.
  - unfold st1, next_fragment, convert. cbn [calls].
    replace (findEsc str len (fragmentStart st + 1)) with (len - 1) by lia.
    reflexivity.
Qed.

Lemma marker_in_last_byte_reads_uninitialised_witness :
  let charsets := ["ISO 2022 IR 13"; "ISO 2022 IR 87"] in
  let str := ("AB" ++ String ESC "")%string in
  let len := String.length str in
  let copiedStr := strncpy str len in
  let st0 := mk_scan_state (IC := sample_iconv) 0 "SHIFT_JIS" EmptyString
               (len * 4) [] in
  hd_error charsets = Some "ISO 2022 IR 13" /\
  2 <= List.length charsets /\
  definedTermToIconvCharset "ISO 2022 IR 13" = Some "SHIFT_JIS" /\
  iconv_open (Iconv := sample_iconv) "SHIFT_JIS" = Some "SHIFT_JIS" /\
  (Z.of_nat len * 4 < 2147483648)%Z /\
  reaches (IC := sample_iconv) charsets str copiedStr len st0 st0 /\
  fragmentStart st0 < len /\
  findEsc str len (fragmentStart st0 + 1) + 1 = len /\
  char_eq NUL 40 = false /\ char_eq NUL 45 = false /\
  char_eq NUL 36 = false /\ char_eq NUL 41 = false /\
  decode (IC := sample_iconv) charsets str = Fault Uninitialised /\
  decode_with (IC := sample_iconv) charsets [NUL] str =
    Ok (mk_decoded "AB" [("SHIFT_JIS", "AB")]).
Proof.
  intros charsets str len copiedStr st0.
  assert (H1 : hd_error charsets = Some "ISO 2022 IR 13") by reflexivity.
  assert (H2 : 2 <= List.length charsets) by (simpl; lia).
  assert (H3 : definedTermToIconvCharset "ISO 2022 IR 13" = Some "SHIFT_JIS")
    by reflexivity.
  assert (H4 : iconv_open (Iconv := sample_iconv) "SHIFT_JIS"
               = Some "SHIFT_JIS") by reflexivity.
  assert (H5 : (Z.of_nat len * 4 < 2147483648)%Z) by reflexivity.
  assert (H6 : reaches (IC := sample_iconv) charsets str copiedStr len st0 st0)
    by constructor.
  assert (H7 : fragmentStart st0 < len) by (cbv; lia).
  assert (H8 : findEsc str len (fragmentStart st0 + 1) + 1 = len)
    by reflexivity.
  assert (H9 : char_eq NUL 40 = false) by reflexivity.
  assert (H10 : char_eq NUL 45 = false) by reflexivity.
  assert (H11 : char_eq NUL 36 = false) by reflexivity.
  assert (H12 : char_eq NUL 41 = false) by reflexivity.
  split; [exact H1|]. split; [exact H2|]. split; [exact H3|].
  split; [exact H4|]. split; [exact H5|]. split; [exact H6|].
  split; [exact H7|]. split; [exact H8|]. split; [exact H9|].
  split; [exact H10|]. split; [exact H11|]. split; [exact H12|].
  destruct (marker_in_last_byte_reads_uninitialised
              sample_iconv charsets "ISO 2022 IR 13" "SHIFT_JIS" "SHIFT_JIS"
              str st0 NUL [] H1 H2 H3 H4 H5 H6 H7 H8 H9 H10 H11 H12)
    as (D1 & _ & _ & D2 & _).
  split; [exact D1 | exact D2].
Defined.

(** A selection that can read its three bytes returns a term. *)
Lemma select_defined (seq : nat -> outcome ascii) (c0 c1 c2 : ascii) :
  seq 0 = Ok c0 -> seq 1 = Ok c1 -> seq 2 = Ok c2 ->
  (exists term, iso2022EscSelectCharset seq = Ok term) /\
  (exists n, iso2022EscSeqLength seq = Ok n).
Proof.
  intros H0 H1 H2.
  set (seq' := fun k => match k with
                        | 0 => seq 0 | 1 => seq 1 | 2 => seq 2
                        | _ => Ok NUL
                        end).
  assert (F : forall k, faults_within (fun _ => False) (seq' k)).
  { intros [|[|[|k]]] f; unfold seq'; rewrite ?H0, ?H1, ?H2; discriminate. }
  change (iso2022EscSelectCharset seq) with (iso2022EscSelectCharset seq').
  change (iso2022EscSeqLength seq) with (iso2022EscSeqLength seq').
  pose proof (select_faults _ _ F) as S1.
  pose proof (length_faults _ _ F) as S2.
  split.
  - destruct (iso2022EscSelectCharset seq') as [t|f]; [eauto|].
    destruct (S1 f eq_refl).
  - destruct (iso2022EscSeqLength seq') as [n|f]; [eauto|].
    destruct (S2 f eq_refl).
Qed.

Lemma peek_in_bounds (buf : string) (i : nat) :
  i < String.length buf -> exists c, peek buf i = Ok c.
Proof.
  intros H. unfold peek. destruct (get_some buf i H) as [c ->]. eauto.
Qed.

Lemma scan_returns {IC : Iconv} (charsets : list string) (str : string) :
  let len := String.length str in
  (forall i, 1 <= i -> i < len ->
             char_eq (char_at str i) 27 = true -> i + 3 < len) ->
  forall fuel st,
    len - fragmentStart st <= fuel ->
    exists st', scan charsets str (strncpy str len) len fuel st = Ok st'.
Proof.
  intros len Hroom. induction fuel as [|fuel IH]; intros st Hf.
  - exists st. apply scan_done. lia.
  - destruct (Nat.lt_ge_cases (fragmentStart st) len) as [Hlt|Hge];
      [|exists st; apply scan_done; exact Hge].
    cbn [scan]. destruct (Nat.ltb_spec (fragmentStart st) len); [|lia].
    cbn [negb].
    assert (B : exists r, scan_body charsets str (strncpy str len) len st
                          = Ok r).
    { unfold scan_body, switch_table. rewrite next_fragment_cursor.
      set (m := findEsc str len (fragmentStart st + 1)).
      destruct (Nat.ltb_spec m len) as [Hm|Hm]; [|eauto].
      destruct (findEsc_bounds str len (fragmentStart st + 1)) as [B1 _];
        [lia|].
      destruct (findEsc_spec str len (fragmentStart st + 1)) as [_ S2];
        [lia|].
      fold m in B1, S2. specialize (S2 Hm).
      assert (R : m + 3 < len) by (apply Hroom; [lia | exact Hm | exact S2]).
      set (escSeq := fun k => peek (strncpy str len) (m + 1 + k)).
      destruct (peek_in_bounds (strncpy str len) (m + 1 + 0)) as [c0 P0];
        [rewrite length_strncpy; lia|].
      destruct (peek_in_bounds (strncpy str len) (m + 1 + 1)) as [c1 P1];
        [rewrite length_strncpy; lia|].
      destruct (peek_in_bounds (strncpy str len) (m + 1 + 2)) as [c2 P2];
        [rewrite length_strncpy; lia|].
      destruct (select_defined escSeq c0 c1 c2 P0 P1 P2)
        as [[t Ht] [n Hn]].
      rewrite Ht. cbn [bind].
      destruct (definedTermToIconvCharset t) as [cs|]; [|eauto].
      destruct (not_found charsets t); [eauto|].
      destruct (negb (iconv_close _)); [eauto|].
      destruct (iconv_open cs) as [h|]; [|eauto].
      destruct (negb (is_iso2022_jp cs)); [|eauto].
      rewrite Hn. cbn [bind]. eauto. }
    destruct B as [r B]. rewrite B. cbn [bind].
    destruct r as [st'|st']; [eauto|].
    apply IH. pose proof (scan_body_progress _ _ _ _ st st' Hlt B). lia.
Qed.

(** The decoder returns a string, of at most four bytes per input byte,
    whenever the working set is not empty and every marker after the first
    byte of the input is followed by three bytes or more: no read leaves the
    copy of the input and no write leaves [result]. *)
Theorem decode_returns_when_markers_have_room
        (IC : Iconv) (charsets : list string) (str : string) :
  charsets <> [] ->
  (Z.of_nat (String.length str) * 4 < 2147483648)%Z ->
  (forall i, 1 <= i -> i < String.length str ->
             char_eq (char_at str i) 27 = true ->
             i + 3 < String.length str) ->
  exists result,
    convertCharStringToUTF8 charsets str = Ok result /\
    String.length result <= String.length str * 4.
Proof.
  intros Hne Hsize Hroom. unfold convertCharStringToUTF8, decode.
  destruct charsets as [|first rest]; [congruence|].
  destruct (definedTermToIconvCharset first) as [cs|];
    [|exists EmptyString; split; [reflexivity | simpl; lia]].
  destruct (iconv_open cs) as [cd0|];
    [|exists EmptyString; split; [reflexivity | simpl; lia]].
  rewrite utf8len_small by exact Hsize.
  destruct (Z.ltb_spec (Z.of_nat (String.length str) * 4) 0); [lia|].
  replace (Z.to_nat (Z.of_nat (String.length str) * 4))
    with (String.length str * 4) by lia.
  set (st0 := mk_scan_state 0 cd0 EmptyString (String.length str * 4) []).
  assert (F0 : fits (String.length str * 4) st0).
  { unfold fits, st0. cbn [written outbytesleft String.length]. lia. }
  assert (Fin : forall st, fits (String.length str * 4) st ->
                  exists result,
                    (r <- finish (String.length str * 4) st ;; Ok (output r))
                    = Ok result /\
                    String.length result <= String.length str * 4).
  { intros st F. rewrite finish_fits by exact F. cbn [bind output].
    eexists. split; [reflexivity|].
    pose proof (length_c_str (written st)). unfold fits in F. lia. }
  destruct (List.length (first :: rest) =? 1).
  - apply Fin. apply convert_fits. exact F0.
  - destruct (scan_returns (first :: rest) str Hroom (String.length str) st0)
      as [st E]; [lia|].
    rewrite E. cbn [bind]. apply Fin.
    exact (scan_fits _ _ _ _ _ _ _ _ E F0).
Qed.

Lemma decode_returns_when_markers_have_room_witness :
  let charsets := ["ISO 2022 IR 6"; "ISO 2022 IR 100"] in
  let str := ("AB" ++ String ESC "-A" ++ String (ascii_of_nat 233) "x")%string in
  charsets <> [] /\
  (Z.of_nat (String.length str) * 4 < 2147483648)%Z /\
  (forall i, 1 <= i -> i < String.length str ->
             char_eq (char_at str i) 27 = true ->
             i + 3 < String.length str) /\
  exists result,
    convertCharStringToUTF8 (IC := sample_iconv) charsets str = Ok result /\
    String.length result <= String.length str * 4.
Proof.
  intros charsets str.
  assert (H1 : charsets <> []) by discriminate.
  assert (H2 : (Z.of_nat (String.length str) * 4 < 2147483648)%Z)
    by reflexivity.
  assert (H3 : forall i, 1 <= i -> i < String.length str ->
                         char_eq (char_at str i) 27 = true ->
                         i + 3 < String.length str).
  { intros i Hi1 Hi2 Hi3. simpl in Hi2 |- *.
    destruct i as [|[|[|[|[|[|[|i]]]]]]]; try discriminate Hi3; lia. }
  split; [exact H1|]. split; [exact H2|]. split; [exact H3|].
  exact (decode_returns_when_markers_have_room sample_iconv charsets str
           H1 H2 H3).
Defined.

Lemma strncpy_c_str (src : string) (n : nat) :
  strncpy src n = strncpy (c_str src) n.
Proof.
  revert src. induction n as [|n IH]; intros src; [reflexivity|].
  destruct src as [|c src]; [reflexivity|].
  cbn [strncpy c_str]. destruct (Ascii.eqb c NUL) eqn:E; [reflexivity|].
  cbn [strncpy]. rewrite E, IH. reflexivity.
Qed.

(** With a working set of one member, the bytes after the first NUL byte of
    the input never reach the converter ([strncpy] replaces them by NUL
    bytes): two inputs of the same length that agree up to their first NUL
    are decoded alike. *)
Theorem single_charset_ignores_bytes_after_nul
        (IC : Iconv) (term : string) (str1 str2 : string) :
  c_str str1 = c_str str2 ->
  String.length str1 = String.length str2 ->
  decode [term] str1 = decode [term] str2.
Proof.
  intros Hc Hl. unfold decode. rewrite Hl.
  rewrite (strncpy_c_str str1), (strncpy_c_str str2), Hc. reflexivity.
Qed.

Lemma single_charset_ignores_bytes_after_nul_witness :
  c_str ("AB" ++ String NUL "CD") = c_str ("AB" ++ String NUL "xy") /\
  String.length ("AB" ++ String NUL "CD")
  = String.length ("AB" ++ String NUL "xy") /\
  decode (IC := sample_iconv) ["ISO_IR 100"] ("AB" ++ String NUL "CD") =
  decode (IC := sample_iconv) ["ISO_IR 100"] ("AB" ++ String NUL "xy").
Proof.
  assert (H1 : c_str ("AB" ++ String NUL "CD")
               = c_str ("AB" ++ String NUL "xy")) by reflexivity.
  assert (H2 : String.length ("AB" ++ String NUL "CD")
               = String.length ("AB" ++ String NUL "xy")) by reflexivity.
  split; [exact H1|]. split; [exact H2|].
  exact (single_charset_ignores_bytes_after_nul sample_iconv "ISO_IR 100"
           _ _ H1 H2).
Defined.

(** Escape sequences select switching spellings only.  So with a working
    set that declares plain spellings alone ("ISO_IR 100\ISO_IR 144"), no
    switch ever succeeds: the first marker the scan finds ends the output,
    which is what the first member's converter wrote for the bytes before
    that marker. *)
Theorem plain_spellings_never_switch
        (IC : Iconv) (charsets : list string) (first initialCharset : string)
        (cd0 : iconv_t) (str : string) (nextTerm : string) :
  let len := String.length str in
  let copiedStr := strncpy str len in
  let marker := findEsc str len 1 in
  let fragment := substring 0 marker copiedStr in
  hd_error charsets = Some first ->
  2 <= List.length charsets ->
  definedTermToIconvCharset first = Some initialCharset ->
  iconv_open initialCharset = Some cd0 ->
  (Z.of_nat len * 4 < 2147483648)%Z ->
  (forall t, In t charsets -> prefix "ISO 2022 IR " t = false) ->
  marker < len ->
  iso2022EscSelectCharset (fun k => peek copiedStr (marker + 1 + k))
    = Ok nextTerm ->
  decode charsets str =
    Ok (mk_decoded (c_str (snd (iconv cd0 fragment (len * 4))))
                   [(cd0, fragment)]).
Proof.
  intros len copiedStr marker fragment
         Hhd Hlen Hterm Hopen Hsize Hplain Hmark Hsel.
  rewrite (decode_first_pass charsets first initialCharset cd0 str)
    by (auto; lia).
  fold len copiedStr.
  rewrite scan_unfold by (cbn [fragmentStart]; lia).
  unfold scan_body, next_fragment, switch_table.
  cbn [fragmentStart convert Nat.add]. fold marker.
  destruct (Nat.ltb_spec marker len); [|lia].
  rewrite Hsel. cbn [bind]. rewrite Nat.sub_0_r. fold fragment.
  assert (Hout : not_found charsets nextTerm = true \/
                 definedTermToIconvCharset nextTerm = None).
  { destruct (string_dec nextTerm EmptyString) as [->|Hne];
      [right; reflexivity|].
    left. destruct (not_found charsets nextTerm) eqn:NF; [reflexivity|].
    apply not_found_In in NF. apply Hplain in NF.
    pose proof (select_terms _ _ Hsel) as T. cbn [In] in T.
    repeat (destruct T as [<-|T]; [first [congruence | discriminate NF]|]).
    destruct T. }
  destruct (definedTermToIconvCharset nextTerm) as [cs|].
  - destruct Hout as [NF|]; [|discriminate]. rewrite NF. cbn [bind].
    rewrite finish_fits; [reflexivity|].
    apply convert_fits. unfold fits.
    cbn [written outbytesleft String.length]. lia.
  - cbn [bind]. rewrite finish_fits; [reflexivity|].
    apply convert_fits. unfold fits.
    cbn [written outbytesleft String.length]. lia.
Qed.

Lemma plain_spellings_never_switch_witness :
  let charsets := ["ISO_IR 100"; "ISO_IR 144"] in
  let str := ("AB" ++ String ESC "-A" ++ String (ascii_of_nat 233) "")%string in
  let len := String.length str in
  let copiedStr := strncpy str len in
  let marker := findEsc str len 1 in
  hd_error charsets = Some "ISO_IR 100" /\
  2 <= List.length charsets /\
  definedTermToIconvCharset "ISO_IR 100" = Some "ISO-8859-1" /\
  iconv_open (Iconv := sample_iconv) "ISO-8859-1" = Some "ISO-8859-1" /\
  (Z.of_nat len * 4 < 2147483648)%Z /\
  (forall t, In t charsets -> prefix "ISO 2022 IR " t = false) /\
  marker < len /\
  iso2022EscSelectCharset (fun k => peek copiedStr (marker + 1 + k))
    = Ok "ISO 2022 IR 100" /\
  convertCharStringToUTF8 (IC := sample_iconv) charsets str = Ok "AB".
Proof.
  intros charsets str len copiedStr marker.
  assert (H1 : hd_error charsets = Some "ISO_IR 100") by reflexivity.
  assert (H2 : 2 <= List.length charsets) by (simpl; lia).
  assert (H3 : definedTermToIconvCharset "ISO_IR 100" = Some "ISO-8859-1")
    by reflexivity.
  assert (H4 : iconv_open (Iconv := sample_iconv) "ISO-8859-1"
               = Some "ISO-8859-1") by reflexivity.
  assert (H5 : (Z.of_nat len * 4 < 2147483648)%Z) by reflexivity.
  assert (H6 : forall t, In t charsets -> prefix "ISO 2022 IR " t = false).
  { intros t [<-|[<-|[]]]; reflexivity. }
  assert (H7 : marker < len) by (cbv; lia).
  assert (H8 : iso2022EscSelectCharset
                 (fun k => peek copiedStr (marker + 1 + k))
               = Ok "ISO 2022 IR 100") by reflexivity.
  split; [exact H1|]. split; [exact H2|]. split; [exact H3|].
  split; [exact H4|]. split; [exact H5|]. split; [exact H6|].
  split; [exact H7|]. split; [exact H8|].
  unfold convertCharStringToUTF8.
  rewrite (plain_spellings_never_switch
             sample_iconv charsets "ISO_IR 100" "ISO-8859-1" "ISO-8859-1"
             str "ISO 2022 IR 100" H1 H2 H3 H4 H5 H6 H7 H8).
  reflexivity.
Defined.

(** ** The tokens of the declaration (line 201) *)

Lemma get_string_of_list (l : list ascii) (i : nat) (c : ascii) :
  get i (string_of_list_ascii l) = Some c -> In c l.
Proof.
  revert i. induction l as [|a l IH]; intros i H; [destruct i; discriminate|].
  destruct i as [|i]; simpl in H.
  - left. congruence.
  - right. exact (IH i H).
Qed.

Lemma string_of_list_snoc (l : list ascii) (c : ascii) (t : string) :
  (string_of_list_ascii (l ++ [c]) ++ t
   = string_of_list_ascii l ++ String c t)%string.
Proof.
  induction l as [|a l IH]; simpl; [reflexivity|]. rewrite IH. reflexivity.
Qed.

Lemma join_cons (d : ascii) (t : string) (ts : list string) :
  ts <> [] -> join d (t :: ts) = (t ++ String d (join d ts))%string.
Proof. destruct ts; [congruence | reflexivity]. Qed.

Lemma getlines_from_join (d : ascii) (s : string) :
  forall cur,
    (forall c, In c cur -> c <> d) ->
    let ts := getlines_from cur s d in
    (forall t i, In t ts -> get i t <> Some d) /\
    ((string_of_list_ascii (rev cur) ++ s)%string = join d ts \/
     (string_of_list_ascii (rev cur) ++ s)%string
     = (join d ts ++ String d EmptyString)%string).
Proof.
  induction s as [|c s IH]; intros cur Hcur ts.
  - unfold ts. cbn [getlines_from]. rewrite app_empty_r.
    destruct cur as [|a cur]; [split; [intros t i []|left; reflexivity]|].
    split; [|left; reflexivity].
    intros t i [<-|[]] G. apply get_string_of_list in G.
    apply in_rev in G. exact (Hcur d G eq_refl).
  - unfold ts. cbn [getlines_from].
    destruct (Ascii.eqb_spec c d) as [->|Hcd].
    + destruct (IH [] ltac:(intros x [])) as [F J]. cbn [rev] in J.
      cbn [string_of_list_ascii append] in J.
      split.
      * intros t i [<-|Hin] G; [|exact (F t i Hin G)].
        apply get_string_of_list in G. apply in_rev in G.
        exact (Hcur d G eq_refl).
      * destruct (getlines_from [] s d) as [|t' ts'] eqn:G.
        -- apply getlines_from_nil in G as [_ ->]. right. reflexivity.
        -- rewrite join_cons by discriminate.
           destruct J as [J|J]; rewrite J; [left; reflexivity|].
           right. rewrite app_assoc_s. reflexivity.
    + assert (Hcur' : forall x, In x (c :: cur) -> x <> d).
      { intros x [<-|Hx]; [exact Hcd | exact (Hcur x Hx)]. }
      destruct (IH (c :: cur) Hcur') as [F J].
      cbn [rev] in J. rewrite string_of_list_snoc in J.
      split; [exact F | exact J].
Qed.

(** The tokens the [while] loop reads hold no backslash, and joined by
    backslashes they give the attribute value back, up to one trailing
    backslash: the loop sees each backslash-separated piece once, in order,
    except an empty piece after the last backslash. *)
Theorem tokens_rebuild_the_value (s : string) :
  (forall t i, In t (getlines s BACKSLASH) -> get i t <> Some BACKSLASH) /\
  (s = join BACKSLASH (getlines s BACKSLASH) \/
   s = (join BACKSLASH (getlines s BACKSLASH)
        ++ String BACKSLASH EmptyString)%string).
Proof.
  exact (getlines_from_join BACKSLASH s [] ltac:(intros x [])).
Qed.

Lemma parse_tokens_blank (tokens : list string) :
  Exists (fun raw => blank raw = true) tokens ->
  forall st, parse_tokens tokens st = Fault OutOfBounds.
Proof.
  induction tokens as [|raw tokens IH]; intros H st.
  - inversion H.
  - cbn [parse_tokens]. unfold parse_token, normalizeTerm.
    rewrite trimWhitespace_spec.
    destruct (blank raw) eqn:B; [reflexivity|]. cbn [bind].
    apply IH. inversion H as [x l Hx|x l Hx]; subst; [congruence | exact Hx].
Qed.

(** The parser reads before the start of a token exactly on the attribute
    values that have an empty or all-whitespace token, such as a value with a
    leading backslash or with two backslashes in a row, and returns without
    such a read on every other value.  Past that read it returns exactly on
    the values whose tokens [normalizeTerm] returns a result for: each holds
    a character that is not whitespace, or is empty with a byte before it
    that is not whitespace.  A token of whitespace only keeps it from
    returning. *)
Theorem parser_returns_exactly_on_returned_tokens
        (below : Z -> list ascii) (spcharsets : string) :
  ((exists st, setSpecificCharacterSet_with below spcharsets = Ok st) <->
   all_return below 0 (getlines (c_str spcharsets) BACKSLASH)) /\
  (setSpecificCharacterSet spcharsets = Fault OutOfBounds <->
   Exists (fun raw => blank raw = true)
          (getlines (c_str spcharsets) BACKSLASH)) /\
  ((exists st, setSpecificCharacterSet spcharsets = Ok st) <->
   Forall (fun raw => blank raw = false)
          (getlines (c_str spcharsets) BACKSLASH)).
Proof.
  assert (Dec : forall l : list string,
             Forall (fun raw => blank raw = false) l \/
             Exists (fun raw => blank raw = true) l).
  { induction l as [|x l [IH|IH]].
    - left. constructor.
    - destruct (blank x) eqn:B; [right; left; exact B|].
      left. constructor; assumption.
    - right. right. exact IH. }
  assert (Fault_of : Exists (fun raw => blank raw = true)
                            (getlines (c_str spcharsets) BACKSLASH) ->
                     setSpecificCharacterSet spcharsets = Fault OutOfBounds).
  { intros X. unfold setSpecificCharacterSet.
    rewrite (parse_tokens_blank _ X). reflexivity. }
  split; [split|split; split].
  - intros [st E]. unfold setSpecificCharacterSet_with in E.
    destruct (parse_tokens_with below (getlines (c_str spcharsets) BACKSLASH)
                (mk_parse_state 0 [] [])) as [st0|f] eqn:P; [|discriminate].
    exact (parse_tokens_with_returns below _ _ _ P).
  - intros H. unfold setSpecificCharacterSet_with.
    destruct (parse_tokens_with_spec below _ (mk_parse_state 0 [] [])
                ltac:(cbn [count]; lia) H) as (st & E & _).
    rewrite E. cbn [bind].
    match goal with
    | |- exists st, (if ?c then _ else _) = _ => destruct c
    end; eexists; reflexivity.
  - intros H. destruct (Dec (getlines (c_str spcharsets) BACKSLASH))
      as [F|X]; [|exact X].
    destruct (setSpecificCharacterSet_returns _ F) as [st E]. congruence.
  - exact Fault_of.
  - intros [st E]. destruct (Dec (getlines (c_str spcharsets) BACKSLASH))
      as [F|X]; [exact F|].
    rewrite (Fault_of X) in E. discriminate.
  - exact (setSpecificCharacterSet_returns spcharsets).
Qed.

(** Each pass of the scan moves the cursor forward by one byte at least,
    also when a switch to ISO-2022-JP leaves it on the marker, because the
    search for the next marker starts one byte after the cursor; so the
    [while] loop ends after [len] passes at most. *)
Theorem scan_pass_moves_cursor_forward
        (IC : Iconv) (charsets : list string) (str : string)
        (st st' : scan_state) :
  let len := String.length str in
  let copiedStr := strncpy str len in
  fragmentStart st < len ->
  scan_body charsets str copiedStr len st = Ok (Continue st') ->
  fragmentStart st < fragmentStart st' /\
  scan charsets str copiedStr len (len - fragmentStart st) st
  <> Fault OutOfFuel /\
  decode charsets str <> Fault OutOfFuel.
Proof.
  intros len copiedStr Hlt B.
  split; [exact (scan_body_progress _ _ _ _ st st' Hlt B)|].
  split; [apply scan_no_out_of_fuel; lia | apply decode_no_out_of_fuel].
Qed.

Lemma scan_pass_moves_cursor_forward_witness :
  let charsets := ["ISO 2022 IR 6"; "ISO 2022 IR 87"] in
  let str := ("AB" ++ String ESC "$BXY")%string in
  let len := String.length str in
  let copiedStr := strncpy str len in
  let st := mk_scan_state (IC := sample_iconv) 0 "ASCII" EmptyString 28 [] in
  let st' := mk_scan_state (IC := sample_iconv) 2 "ISO-2022-JP" "AB" 26
               [("ASCII", "AB")] in
  fragmentStart st < len /\
  scan_body (IC := sample_iconv) charsets str copiedStr len st
  = Ok (Continue st') /\
  fragmentStart st < fragmentStart st'.
Proof.
  intros charsets str len copiedStr st st'.
  assert (H1 : fragmentStart st < len) by (cbv; lia).
  assert (H2 : scan_body (IC := sample_iconv) charsets str copiedStr len st
               = Ok (Continue st')) by reflexivity.
  split; [exact H1|]. split; [exact H2|].
  exact (proj1 (scan_pass_moves_cursor_forward
                  sample_iconv charsets str st st' H1 H2)).
Defined.
